(** * fix_backend_prints.py: the println rewriter, embedded and verified

    The script walks a directory, and for every [.rs] file rewrites lines
    that look like orphaned string literals into [ic_cdk::println!] calls.
    This development embeds the script function by function:

    - [PyStr]: the Python string operations the script calls
      ([str.strip], [str.endswith], [in], [str.split], [str.join], the two
      regular expressions), over sequences of Unicode code points;
    - [Rewriter]: the [while] loop of [fix_missing_println], with its index
      [i], its look-ahead index [j] and the list [fixed_lines];
    - [Script]: [fix_missing_println] with its [try]/[except] and file
      effects, [os.walk] and [main];
    - [Samples]: source texts and a small file system to run them on.

    The facts follow in the same order ([PyStrFacts], [RewriterFacts],
    [ScriptFacts]), and the properties of the specification close the
    file. *)

From Stdlib Require Import String Ascii DecimalString.
From Stdlib Require Import List NArith Arith Bool Lia.
Import ListNotations.

Set Warnings "-register-all".

(* ================================================================== *)
(** * Python strings *)
(* ================================================================== *)

Module PyStr.

(** A Python [str] is a sequence of Unicode code points. *)
Definition char := N.
Definition str := list char.

(** String literals of the script, written as Rocq strings. *)
Definition lit (s : string) : str := map N_of_ascii (list_ascii_of_string s).
Arguments lit s%_string.

(** The double quote (it cannot be written inside a literal). *)
Definition QUOTE : char := 34%N.
Definition NEWLINE : char := 10%N.
Definition COMMA : char := 44%N.

(** [str.isspace] on one character, which is also what [\s] matches in a
    [str] pattern: CPython's [Py_UNICODE_ISSPACE]. *)
Definition isspace (c : char) : bool :=
  ((9 <=? c) && (c <=? 13) || (28 <=? c) && (c <=? 32)
   || (c =? 133) || (c =? 160) || (c =? 5760)
   || (8192 <=? c) && (c <=? 8202)
   || (c =? 8232) || (c =? 8233) || (c =? 8239) || (c =? 8287)
   || (c =? 12288))%N.

Fixpoint eqb_str (a b : str) : bool :=
  match a, b with
  | [], [] => true
  | x :: a', y :: b' => (x =? y)%N && eqb_str a' b'
  | _, _ => false
  end.

(** [s.startswith(prefix)] *)
Fixpoint startswith (s prefix : str) {struct prefix} : bool :=
  match prefix, s with
  | [], _ => true
  | p :: prefix', c :: s' => (c =? p)%N && startswith s' prefix'
  | _ :: _, [] => false
  end.

(** [s.endswith(suffix)] *)
Definition endswith (s suffix : str) : bool :=
  startswith (rev s) (rev suffix).

(** [sub in s] *)
Fixpoint contains (s sub : str) : bool :=
  startswith s sub ||
  match s with
  | [] => false
  | _ :: s' => contains s' sub
  end.

Fixpoint dropwhile (p : char -> bool) (s : str) : str :=
  match s with
  | c :: s' => if p c then dropwhile p s' else s
  | [] => []
  end.

Fixpoint takewhile (p : char -> bool) (s : str) : str :=
  match s with
  | c :: s' => if p c then c :: takewhile p s' else []
  | [] => []
  end.

(** [s.lstrip()], [s.rstrip()], [s.strip()] *)
Definition lstrip (s : str) : str := dropwhile isspace s.
Definition rstrip (s : str) : str := rev (dropwhile isspace (rev s)).
Definition strip (s : str) : str := rstrip (lstrip s).

(** [s.rstrip(chars)] *)
Definition rstrip_chars (s chars : str) : str :=
  rev (dropwhile (fun c => existsb (N.eqb c) chars) (rev s)).

(** [s.split(sep)] for a one-character separator: never empty. *)
Fixpoint split (s : str) (sep : char) : list str :=
  match s with
  | [] => [[]]
  | c :: s' =>
      if (c =? sep)%N then [] :: split s' sep
      else match split s' sep with
           | w :: ws => (c :: w) :: ws
           | [] => [[c]]
           end
  end.

(** [sep.join(parts)] *)
Fixpoint join (sep : str) (parts : list str) : str :=
  match parts with
  | [] => []
  | p :: ps =>
      match ps with
      | [] => p
      | _ :: _ => p ++ sep ++ join sep ps
      end
  end.

(** [re.match] of [line] against the pattern [^\s+] followed by a double
    quote: one or more whitespace characters, then the quote.  The quote
    is not whitespace, so the greedy [\s+] never gives characters back:
    the match succeeds exactly when the line starts with a whitespace
    character and the first character after the leading whitespace is
    the quote. *)
Definition re_match_ws_quote (line : str) : bool :=
  match line with
  | c :: rest => isspace c && startswith (lstrip rest) [QUOTE]
  | [] => false
  end.

(** Group 1 of [re.match] against zero or more whitespace characters at
    the start of [line]: the leading whitespace, which always matches. *)
Definition re_leading_ws (line : str) : str := takewhile isspace line.

(** [str(n)] for a length or a counter. *)
Definition str_of_nat (n : nat) : str :=
  lit (NilEmpty.string_of_uint (Nat.to_uint n)).

End PyStr.

Import PyStr.

(* ================================================================== *)
(** * The rewriting loop of [fix_missing_println] *)
(* ================================================================== *)

Module Rewriter.

(** The script also assigns a regular expression to a variable named
    [pattern] and never uses it; it has no counterpart here. *)

Definition MACRO : str := lit "ic_cdk::println!".

(** The condition of the outer [if]: the line looks like a missing
    println statement. *)
Definition is_candidate_start (line : str) : bool :=
  re_match_ws_quote line &&
  negb (contains line (lit "ic_cdk::println!")) &&
  negb (contains line (lit "return ")) &&
  negb (contains line (lit "format!")) &&
  negb (contains line (lit "panic!")) &&
  negb (contains line (lit "assert!")) &&
  negb (contains line (lit "= " ++ [QUOTE])) &&
  negb (contains line (lit "let ")) &&
  negb (contains line (lit "const ")).

(** The condition of the inner [while], on [lines[j]]. *)
Definition is_continuation (l : str) : bool :=
  endswith (strip l) (lit ",") ||
  (endswith (strip l) (lit ");") && negb (startswith (strip l) (lit ")"))).

(** The inner [while j < len(lines) and ...] loop; [rest] is [lines[j:]]. *)
Fixpoint look_ahead (rest : list str) (j : nat) (continuation_lines : list str)
  : nat * list str :=
  match rest with
  | l :: rest' =>
      if is_continuation l
      then look_ahead rest' (j + 1) (continuation_lines ++ [l])
      else (j, continuation_lines)
  | [] => (j, continuation_lines)
  end.

(** The last line of a multi-line block. *)
Definition close_last (last_line : str) : str :=
  if endswith (strip last_line) (lit ");") then last_line
  else rstrip_chars (rstrip last_line) (lit ",") ++ lit ");".

(** The first line of a multi-line block. *)
Definition println_open (line : str) : str :=
  re_leading_ws line ++ lit "ic_cdk::println!(" ++ strip line.

(** The single-line case. *)
Definition println_single (line : str) : str :=
  let quote_content := strip line in
  let quote_content :=
    if endswith quote_content (lit ";") then removelast quote_content
    else quote_content in
  re_leading_ws line ++ lit "ic_cdk::println!(" ++ quote_content ++ lit ");".

(** The variables of the outer loop. *)
Record state := { i : nat; fixed_lines : list str }.

(** One iteration of the outer [while], entered with [i < len(lines)]. *)
Definition body (lines : list str) (st : state) : state :=
  let line := nth (i st) lines [] in
  if is_candidate_start line then
    let '(j, continuation_lines) :=
      look_ahead (skipn (i st + 1) lines) (i st + 1) [] in
    match continuation_lines with
    | _ :: _ =>
        {| i := j;
           fixed_lines :=
             ((fixed_lines st ++ [println_open line])
                ++ removelast continuation_lines)
               ++ [close_last (last continuation_lines [])] |}
    | [] =>
        {| i := i st + 1;
           fixed_lines := fixed_lines st ++ [println_single line] |}
    end
  else
    {| i := i st + 1; fixed_lines := fixed_lines st ++ [line] |}.

(** The outer [while i < len(lines)], with a bound on the iterations. *)
Fixpoint while_loop (fuel : nat) (lines : list str) (st : state) : state :=
  match fuel with
  | 0 => st
  | S fuel' =>
      if i st <? length lines then while_loop fuel' lines (body lines st)
      else st
  end.

(** From [lines] to [fixed_lines]: every iteration advances [i], so
    [len(lines)] iterations are enough (see [while_loop_exits]). *)
Definition rewrite_lines (lines : list str) : list str :=
  fixed_lines
    (while_loop (length lines) lines {| i := 0; fixed_lines := [] |}).

(** From [content] to [new_content]. *)
Definition rewrite_content (content : str) : str :=
  join [NEWLINE] (rewrite_lines (split content NEWLINE)).

(** The substrings of the outer [if], in its order: a line that contains
    one of them is left alone (see [is_candidate_start_excluded]). *)
Definition EXCLUDED : list str :=
  [ lit "ic_cdk::println!"; lit "return "; lit "format!"; lit "panic!";
    lit "assert!"; lit "= " ++ [QUOTE]; lit "let "; lit "const " ].

(** A word that starts with a visible character and has no comma. *)
Definition plain_word (sub : str) : bool :=
  match sub with
  | h :: _ => negb (isspace h) && forallb (fun c => negb (c =? COMMA)%N) sub
  | [] => false
  end.

(** ** The loop seen as a sequence of blocks

    These definitions add nothing to the loop; they name what its
    iterations do, for the statements below. *)

(** The state the loop starts from. *)
Definition init : state := {| i := 0; fixed_lines := [] |}.

(** The [continuation_lines] the look-ahead collects for a block that
    starts at index [k]. *)
Definition continuation_lines_at (lines : list str) (k : nat) : list str :=
  snd (look_ahead (skipn (k + 1) lines) (k + 1) []).

(** What a block appends to [fixed_lines]. *)
Definition reconstruct (line : str) (continuation_lines : list str)
  : list str :=
  match continuation_lines with
  | _ :: _ =>
      println_open line
        :: removelast continuation_lines
        ++ [close_last (last continuation_lines [])]
  | [] => [println_single line]
  end.

(** The lines the iteration entered in state [st] consumes as
    continuations: those of its look-ahead when it starts a block. *)
Definition consumed_by (lines : list str) (st : state) : list str :=
  if (i st <? length lines) && is_candidate_start (nth (i st) lines [])
  then continuation_lines_at lines (i st)
  else [].

(** All the lines a run of the loop consumes as continuations, iteration
    after iteration. *)
Definition consumed_continuations (lines : list str) : list str :=
  flat_map (fun k => consumed_by lines (while_loop k lines init))
           (seq 0 (length lines)).

(** Shorthands for the statements. *)
Abbreviation not_candidate := (fun l : str => is_candidate_start l = false).
Abbreviation no_newline := (Forall (fun c : char => c <> NEWLINE)).

End Rewriter.

Import Rewriter.

(* ================================================================== *)
(** * The script: files, [try]/[except], [os.walk], [main] *)
(* ================================================================== *)

Module Script.

(** An exception, as the script sees it: the text its [except] clause
    prints.  Only [Exception] and its subclasses are modelled, which is
    what file operations and the string code raise. *)
Definition exn := str.

Inductive outcome (A : Type) : Type :=
| Returned (a : A)
| Raised (e : exn).
Arguments Returned {A} a.
Arguments Raised {A} e.

(** What a run does to the outside: lines printed, files written. *)
Inductive event : Type :=
| Print (text : str)
| Write (file_path : str) (data : str).

(** One entry of a directory, as [os.walk] classifies it. *)
Inductive dirent : Type :=
| FileEnt (name : str)
| DirLink (name : str)
| DirEnt (name : str) (scan : exn + list dirent).

Definition name_of (e : dirent) : str :=
  match e with
  | FileEnt name | DirLink name | DirEnt name _ => name
  end.

Definition is_dir (e : dirent) : bool :=
  match e with
  | FileEnt _ => false
  | DirLink _ | DirEnt _ _ => true
  end.

(** [os.path.join(a, b)] on POSIX. *)
Definition path_join (a b : str) : str :=
  if startswith b (lit "/") then b
  else if eqb_str a [] || endswith a (lit "/") then a ++ b
  else a ++ lit "/" ++ b.

Definition walk_item : Type := str * list str * list str.

Definition dirs_of (entries : list dirent) : list str :=
  map name_of (filter is_dir entries).

Definition nondirs_of (entries : list dirent) : list str :=
  map name_of (filter (fun e => negb (is_dir e)) entries).

(** [os.walk] below one entry of [top], top-down, links not followed.
    The script passes no [onerror], so a directory whose [os.scandir]
    raises [OSError] is skipped without a word. *)
Fixpoint walk_entry (top : str) (e : dirent) {struct e} : list walk_item :=
  match e with
  | DirEnt name (inr entries) =>
      let new_path := path_join top name in
      (new_path, dirs_of entries, nondirs_of entries)
        :: flat_map (walk_entry new_path) entries
  | DirEnt _ (inl _) => []
  | FileEnt _ | DirLink _ => []
  end.

(** [os.walk(top)], given what [os.scandir(top)] answers. *)
Definition os_walk (top : str) (scan : exn + list dirent) : list walk_item :=
  match scan with
  | inr entries =>
      (top, dirs_of entries, nondirs_of entries)
        :: flat_map (walk_entry top) entries
  | inl _ => []
  end.

Section Files.

(** The outside is a parameter: the states of the file system, what
    reading a file as UTF-8 text returns or raises, what opening it for
    writing and writing the text leaves behind and whether that raised,
    the directory tree [os.scandir] reports below a path; and, for
    [sys.stdout], which characters beyond ASCII its encoding can encode
    and the text of the [UnicodeEncodeError] raised on a text it cannot
    encode. *)
Variable FS : Type.
Variable stdout_encodes : char -> bool.
Variable encode_error : str -> exn.
Variable read_text : FS -> str -> exn + str.
Variable write_text : FS -> str -> str -> FS * option exn.
Variable scan_tree : FS -> str -> exn + list dirent.

Record world : Type := { files : FS; trace : list event }.

(** Code that may raise and that acts on the world. *)
Definition M (A : Type) : Type := world -> outcome A * world.

Definition ret {A} (a : A) : M A := fun w => (Returned a, w).

Definition bind {A B} (m : M A) (k : A -> M B) : M B :=
  fun w =>
    match m w with
    | (Returned a, w') => k a w'
    | (Raised e, w') => (Raised e, w')
    end.

(** [try: m  except Exception as e: handler(e)] *)
Definition try_except {A} (m : M A) (handler : exn -> M A) : M A :=
  fun w =>
    match m w with
    | (Returned a, w') => (Returned a, w')
    | (Raised e, w') => handler e w'
    end.

Notation "x <- m ;; k" := (bind m (fun x => k))
  (at level 61, m at next level, right associativity).
Notation "m ;; k" := (bind m (fun _ => k))
  (at level 61, right associativity).

(** Whether [sys.stdout] can encode a text: every character is in ASCII
    (the encodings of a terminal or a pipe all cover ASCII) or is one the
    encoding covers. *)
Definition printable (text : str) : bool :=
  forallb (fun c => (c <? 128)%N || stdout_encodes c) text.

(** [print(text)]: the text is encoded when it is written, so a text that
    cannot be encoded raises and prints nothing.  A [sys.stdout] that is
    closed or broken is not part of this model. *)
Definition print (text : str) : M unit :=
  fun w =>
    if printable text
    then (Returned tt,
          {| files := files w; trace := trace w ++ [Print text] |})
    else (Raised (encode_error text), w).

(** [with open(file_path, 'r', encoding='utf-8') as f: f.read()] *)
Definition read_file (file_path : str) : M str :=
  fun w =>
    match read_text (files w) file_path with
    | inr content => (Returned content, w)
    | inl e => (Raised e, w)
    end.

(** [with open(file_path, 'w', encoding='utf-8') as f: f.write(data)] *)
Definition write_file (file_path data : str) : M unit :=
  fun w =>
    let '(fs', r) := write_text (files w) file_path data in
    let w' := {| files := fs'; trace := trace w ++ [Write file_path data] |} in
    match r with
    | None => (Returned tt, w')
    | Some e => (Raised e, w')
    end.

(** The text of the [except] clause. *)
Definition error_line (file_path : str) (e : exn) : str :=
  lit "Error processing " ++ file_path ++ lit ": " ++ e.

Definition fix_missing_println (file_path : str) : M bool :=
  try_except
    (content <- read_file file_path ;;
     let original_content := content in
     let new_content := rewrite_content content in
     if negb (eqb_str new_content original_content) then
       write_file file_path new_content ;;
       print (lit "Fixed: " ++ file_path) ;;
       ret true
     else ret false)
    (fun e =>
       print (error_line file_path e) ;;
       ret false).

Definition backend_dir : str :=
  lit "/Users/zhang/Desktop/ICP/DeFlow/src/DeFlow_backend/src".

(** The first loop of [main]: the [.rs] files of the walk. *)
Definition find_rust_files (walk : list walk_item) : list str :=
  flat_map
    (fun item : walk_item =>
       let '(root, _, files) := item in
       map (path_join root)
           (filter (fun file => endswith file (lit ".rs")) files))
    walk.

(** The second loop of [main]. *)
Fixpoint fix_all (rust_files : list str) (fixed_count : nat) : M nat :=
  match rust_files with
  | [] => ret fixed_count
  | file_path :: rest =>
      fixed <- fix_missing_println file_path ;;
      fix_all rest (if fixed then fixed_count + 1 else fixed_count)
  end.

Definition main : M unit :=
  fun w =>
    let rust_files :=
      find_rust_files (os_walk backend_dir (scan_tree (files w) backend_dir)) in
    (print (lit "Found " ++ str_of_nat (length rust_files)
              ++ lit " Rust files to process...") ;;
     fixed_count <- fix_all rust_files 0 ;;
     print (lit "Fixed " ++ str_of_nat fixed_count ++ lit " files")) w.

End Files.

Arguments files {FS} w.
Arguments trace {FS} w.
Arguments Build_world {FS} files trace.
Arguments ret {FS A} a w.
Arguments bind {FS A B} m k w.
Arguments try_except {FS A} m handler w.
Arguments print {FS} stdout_encodes encode_error text w.
Arguments read_file {FS} read_text file_path w.
Arguments write_file {FS} write_text file_path data w.
Arguments fix_missing_println {FS} stdout_encodes encode_error
  read_text write_text file_path w.
Arguments fix_all {FS} stdout_encodes encode_error
  read_text write_text rust_files fixed_count w.
Arguments main {FS} stdout_encodes encode_error
  read_text write_text scan_tree w.

End Script.

(* ================================================================== *)
(** * Sample inputs *)
(* ================================================================== *)

Module Samples.

Import Script.

(** A string literal of Rust source, between its quotes. *)
Definition quoted (s : string) : str := QUOTE :: lit s ++ [QUOTE].
Arguments quoted s%_string.

(** One orphaned literal, and its rewriting. *)
Definition hello : str := lit "    " ++ quoted "hello" ++ lit ";".
Definition hello_fixed : str :=
  lit "    ic_cdk::println!(" ++ quoted "hello" ++ lit ");".

(** A format string, a literal argument on a line of its own, and a last
    argument that closes the call. *)
Definition nested_literal : str :=
  join [NEWLINE]
    [ lit "    " ++ quoted "balance {} {}" ++ lit ",";
      lit "        " ++ quoted "unit" ++ lit ",";
      lit "        amount);" ].

(** A format string and one argument that closes the call. *)
Definition two_line_call : str :=
  join [NEWLINE]
    [ lit "    " ++ quoted "sum {}" ++ lit ",";
      lit "        total);" ].

(** A format string, two arguments that end in commas, a third that ends
    the call. *)
Definition fmt_line : str := lit "    " ++ quoted "at {} {} {}" ++ lit ",".
Definition arg_x : str := lit "        x,".
Definition arg_y : str := lit "        y,".
Definition arg_z_closing : str := lit "        z);".
Definition lone_closing : str := lit "    );".

(** An orphaned literal followed by a binding that goes on to the next
    line. *)
Definition orphan : str := lit "    " ++ quoted "orphan".
Definition let_line : str := lit "    let v = f(a,".

(** Text without any quote. *)
Definition plain_text : str :=
  join [NEWLINE] [ lit "fn main() {"; lit "    run();"; lit "}" ].

(** A literal in column 0. *)
Definition column0 : str := quoted "hello" ++ lit ";".

(** A small file system: each path holds the text reading it returns, or
    the exception reading it raises; writing always succeeds; all files
    sit in the root directory, which is missing when there is none. *)
Definition demo_fs : Type := list (str * (exn + str)).

Definition in_backend (name : string) : str := path_join backend_dir (lit name).
Arguments in_backend name%_string.

Definition ENOENT : exn := lit "[Errno 2] No such file or directory".
Definition EACCES : exn := lit "[Errno 13] Permission denied".

Fixpoint demo_read (fs : demo_fs) (file_path : str) : exn + str :=
  match fs with
  | [] => inl ENOENT
  | (p, r) :: fs' => if eqb_str p file_path then r else demo_read fs' file_path
  end.

Definition demo_write (fs : demo_fs) (file_path data : str)
  : demo_fs * option exn :=
  ((file_path, inr data) :: fs, None).

Definition demo_scan (fs : demo_fs) (top : str) : exn + list dirent :=
  match fs with
  | [] => inl ENOENT
  | _ :: _ =>
      inr (map (fun entry => FileEnt (skipn (length top + 1) (fst entry))) fs)
  end.


(** Two encodings of [sys.stdout]: one that encodes every character but
    the surrogates, as UTF-8 does, one that encodes ASCII only; and the
    text of the error of the latter. *)
Definition utf8_stdout (c : char) : bool :=
  negb ((55296 <=? c) && (c <=? 57343))%N.
Definition ascii_stdout (c : char) : bool := false.
Definition demo_encode_error (text : str) : exn :=
  lit "'ascii' codec can't encode character".

(** A file whose name holds a letter outside ASCII. *)
Definition cafe_rs : str :=
  path_join backend_dir (lit "caf" ++ [233%N] ++ lit ".rs").

Definition demo_world (fs : demo_fs) : world demo_fs :=
  {| files := fs; trace := [] |}.

(** No root directory at all. *)
Definition no_root : demo_fs := [].

(** One unreadable file, then one file to fix. *)
Definition locked_then_hello : demo_fs :=
  [ (in_backend "a.rs", inl EACCES); (in_backend "b.rs", inr hello) ].


End Samples.

(* ================================================================== *)
(** * What a run can be observed to do *)
(* ================================================================== *)

Module Observations.

Import Script.

(** What can become of the line at one index of [lines]: it is copied, or
    it starts a block and gets the macro, or it is a continuation and its
    ending is closed. *)
Definition line_fate (line out : str) : Prop :=
  out = line \/
  (is_candidate_start line = true /\
   (out = println_open line \/ out = println_single line)) \/
  (is_continuation line = true /\ out = close_last line).

(** The paths a trace writes to, in order. *)
Definition written_paths (tr : list event) : list str :=
  flat_map (fun ev => match ev with
                      | Write file_path _ => [file_path]
                      | Print _ => []
                      end) tr.

(** Whether an event is a line of the form Fixed: path. *)
Definition is_fixed_report (ev : event) : bool :=
  match ev with
  | Print text => startswith text (lit "Fixed: ")
  | Write _ _ => false
  end.

(** How many files a trace reports as fixed. *)
Definition fixed_reports (tr : list event) : nat :=
  length (filter is_fixed_report tr).

(** [listed top entries name p]: the directory [top], whose entries are
    [entries], holds a file [name] at path [p], in [top] itself or below
    it through directories that can be listed and are not links. *)
Inductive listed : str -> list dirent -> str -> str -> Prop :=
| listed_here (top : str) (entries : list dirent) (name : str) :
    In (FileEnt name) entries ->
    listed top entries name (path_join top name)
| listed_below (top : str) (entries : list dirent) (dir : str)
               (sub : list dirent) (name p : str) :
    In (DirEnt dir (inr sub)) entries ->
    listed (path_join top dir) sub name p ->
    listed top entries name p.

(** The walk below one entry finds the [.rs] files listed below it. *)
Definition walk_entry_finds_listed (e : dirent) : Prop :=
  forall top p,
    In p (find_rust_files (walk_entry top e)) <->
    exists dir sub name,
      e = DirEnt dir (inr sub) /\
      listed (path_join top dir) sub name p /\
      endswith name (lit ".rs") = true.

(** The four ways through [fix_missing_println]: the file cannot be read,
    it holds no candidate-start, it cannot be written, or it is
    rewritten.  What the two ways that report an error and the way that
    reports a fix return depends on whether their line can be printed. *)
Section Ways.

Variable FS : Type.
Variable stdout_encodes : char -> bool.
Variable encode_error : str -> exn.
Variable read_text : FS -> str -> exn + str.
Variable write_text : FS -> str -> str -> FS * option exn.

Inductive way (file_path : str) (w : world FS) : Prop :=
| Unreadable (e : exn)
    (Hr : read_text (files w) file_path = inl e)
    (H : fix_missing_println stdout_encodes encode_error
                             read_text write_text file_path w =
         if printable stdout_encodes (error_line file_path e)
         then (Returned false,
               {| files := files w;
                  trace := trace w ++ [Print (error_line file_path e)] |})
         else (Raised (encode_error (error_line file_path e)), w))
| Unchanged (content : str)
    (Hr : read_text (files w) file_path = inr content)
    (Hnc : Forall (fun l => is_candidate_start l = false)
                  (split content NEWLINE))
    (H : fix_missing_println stdout_encodes encode_error
                             read_text write_text file_path w =
         (Returned false, w))
| Unwritable (content : str) (fs' : FS) (e : exn)
    (Hr : read_text (files w) file_path = inr content)
    (Hex : Exists (fun l => is_candidate_start l = true)
                  (split content NEWLINE))
    (Hw : write_text (files w) file_path (rewrite_content content)
          = (fs', Some e))
    (H : fix_missing_println stdout_encodes encode_error
                             read_text write_text file_path w =
         if printable stdout_encodes (error_line file_path e)
         then (Returned false,
               {| files := fs';
                  trace := trace w ++
                    [Write file_path (rewrite_content content);
                     Print (error_line file_path e)] |})
         else (Raised (encode_error (error_line file_path e)),
               {| files := fs';
                  trace := trace w ++
                    [Write file_path (rewrite_content content)] |}))
| Rewritten (content : str) (fs' : FS)
    (Hr : read_text (files w) file_path = inr content)
    (Hex : Exists (fun l => is_candidate_start l = true)
                  (split content NEWLINE))
    (Hw : write_text (files w) file_path (rewrite_content content)
          = (fs', None))
    (H : fix_missing_println stdout_encodes encode_error
                             read_text write_text file_path w =
         if printable stdout_encodes file_path
         then (Returned true,
               {| files := fs';
                  trace := trace w ++
                    [Write file_path (rewrite_content content);
                     Print (lit "Fixed: " ++ file_path)] |})
         else (Raised (encode_error
                         (error_line file_path
                            (encode_error (lit "Fixed: " ++ file_path)))),
               {| files := fs';
                  trace := trace w ++
                    [Write file_path (rewrite_content content)] |})).

End Ways.

(** A tree for the walk: two files in the root, a directory that cannot
    be listed, a link to a directory, and a directory with one file. *)
Definition demo_tree : list dirent :=
  [ FileEnt (lit "lib.rs");
    FileEnt (lit "notes.txt");
    DirEnt (lit "locked") (inl (lit "[Errno 13] Permission denied"));
    DirLink (lit "vendor");
    DirEnt (lit "api") (inr [FileEnt (lit "mod.rs")]) ].

End Observations.

(* ================================================================== *)
(** * Facts about the string operations *)
(* ================================================================== *)

Module PyStrFacts.

Lemma eqb_str_eq (a b : str) : eqb_str a b = true <-> a = b.
Proof.
  revert b; induction a as [|x a IH]; intros [|y b]; simpl;
    try (split; (discriminate || reflexivity)).
  rewrite andb_true_iff, N.eqb_eq, IH.
  split; [intros [-> ->]; reflexivity | intros E; inversion E; auto].
Qed.

Lemma eqb_str_refl (a : str) : eqb_str a a = true.
Proof. apply eqb_str_eq; reflexivity. Qed.

Lemma startswith_iff (s prefix : str) :
  startswith s prefix = true <-> exists t, s = prefix ++ t.
Proof.
  revert s; induction prefix as [|p prefix IH]; intros s; simpl.
  - split; [intros _; exists s; reflexivity | reflexivity].
  - destruct s as [|c s].
    + split; [discriminate | intros [t E]; discriminate].
    + rewrite andb_true_iff, N.eqb_eq, IH. split.
      * intros [-> [t ->]]. exists t; reflexivity.
      * intros [t E]. inversion E; subst. split; [reflexivity | exists t; reflexivity].
Qed.

Lemma startswith_app (prefix t : str) : startswith (prefix ++ t) prefix = true.
Proof. apply startswith_iff; exists t; reflexivity. Qed.

Lemma endswith_iff (s suffix : str) :
  endswith s suffix = true <-> exists t, s = t ++ suffix.
Proof.
  unfold endswith. rewrite startswith_iff. split.
  - intros [t E]. exists (rev t).
    rewrite <- (rev_involutive s), E, rev_app_distr, rev_involutive.
    reflexivity.
  - intros [t ->]. exists (rev t). apply rev_app_distr.
Qed.

Lemma contains_iff (s sub : str) :
  contains s sub = true <-> exists a b, s = a ++ sub ++ b.
Proof.
  induction s as [|c s IH]; simpl.
  - rewrite orb_false_r, startswith_iff. split.
    + intros [t E]. exists [], t. exact E.
    + intros [a [b E]]. destruct a as [|x a]; [exists b; exact E | discriminate].
  - rewrite orb_true_iff, IH, startswith_iff. split.
    + intros [[t E] | [a [b E]]].
      * exists [], t. exact E.
      * exists (c :: a), b. simpl. rewrite E. reflexivity.
    + intros [a [b E]]. destruct a as [|x a].
      * left. exists b. exact E.
      * right. exists a, b. inversion E. reflexivity.
Qed.

Lemma contains_middle (a sub b : str) : contains (a ++ sub ++ b) sub = true.
Proof. apply contains_iff. exists a, b. reflexivity. Qed.

Lemma takewhile_dropwhile (p : char -> bool) (s : str) :
  takewhile p s ++ dropwhile p s = s.
Proof.
  induction s as [|c s IH]; simpl; [reflexivity|].
  destruct (p c); simpl; [rewrite IH|]; reflexivity.
Qed.

Lemma takewhile_all (p : char -> bool) (s : str) :
  Forall (fun c => p c = true) (takewhile p s).
Proof.
  induction s as [|c s IH]; simpl; [constructor|].
  destruct (p c) eqn:E; constructor; assumption.
Qed.

Lemma dropwhile_app_keep (p : char -> bool) (a b : str) :
  dropwhile p a <> [] -> dropwhile p (a ++ b) = dropwhile p a ++ b.
Proof.
  induction a as [|c a IH]; simpl; [congruence|].
  destruct (p c); auto.
Qed.

Lemma dropwhile_all (p : char -> bool) (a b : str) :
  Forall (fun c => p c = true) a -> dropwhile p (a ++ b) = dropwhile p b.
Proof.
  induction 1 as [|c a Hc _ IH]; simpl; [reflexivity|].
  rewrite Hc. exact IH.
Qed.

Lemma Forall_removelast (A : Type) (P : A -> Prop) (l : list A) :
  Forall P l -> Forall P (removelast l).
Proof.
  induction 1 as [|x l Hx Hl IH]; simpl; [constructor|].
  destruct l; [constructor | constructor; assumption].
Qed.

Lemma Forall_last (A : Type) (P : A -> Prop) (l : list A) (d : A) :
  Forall P l -> l <> [] -> P (last l d).
Proof.
  induction 1 as [|x l Hx Hl IH]; intros Hne; [exfalso; auto|].
  destruct l as [|y l]; [exact Hx|].
  apply IH. discriminate.
Qed.

Lemma length_removelast_snoc (A : Type) (l : list A) :
  l <> [] -> S (length (removelast l)) = length l.
Proof.
  induction l as [|x l IH]; intros Hne; [exfalso; auto|].
  destruct l as [|y l]; [reflexivity|].
  change (S (S (length (removelast (y :: l)))) = S (length (y :: l))).
  rewrite IH by discriminate. reflexivity.
Qed.

Lemma firstn_snoc_nth (A : Type) (l : list A) (k : nat) (d : A) :
  k < length l -> firstn (k + 1) l = firstn k l ++ [nth k l d].
Proof.
  revert k; induction l as [|x l IH]; intros k Hk; simpl in Hk; [lia|].
  destruct k as [|k]; simpl; [reflexivity|].
  rewrite IH by lia. reflexivity.
Qed.

(** Characters of a result come from the argument. *)
Section Chars.

Variable Q : char -> Prop.

Lemma takewhile_keeps p s : Forall Q s -> Forall Q (takewhile p s).
Proof.
  induction 1 as [|c s Hc _ IH]; simpl; [constructor|].
  destruct (p c); constructor; assumption.
Qed.

Lemma dropwhile_keeps p s : Forall Q s -> Forall Q (dropwhile p s).
Proof.
  induction 1 as [|c s Hc Hs IH]; simpl; [constructor|].
  destruct (p c); [assumption | constructor; assumption].
Qed.

Lemma rev_keeps (s : str) : Forall Q s -> Forall Q (rev s).
Proof. intros H. apply Forall_rev. exact H. Qed.

Lemma rstrip_keeps s : Forall Q s -> Forall Q (rstrip s).
Proof. intros H. apply rev_keeps, dropwhile_keeps, rev_keeps, H. Qed.

Lemma strip_keeps s : Forall Q s -> Forall Q (strip s).
Proof. intros H. apply rstrip_keeps, dropwhile_keeps, H. Qed.

Lemma rstrip_chars_keeps s chars : Forall Q s -> Forall Q (rstrip_chars s chars).
Proof. intros H. apply rev_keeps, dropwhile_keeps, rev_keeps, H. Qed.

End Chars.

(** [split] and [join] on the newline. *)

Lemma split_nonempty (s : str) (sep : char) : split s sep <> [].
Proof.
  destruct s as [|c s]; simpl; [discriminate|].
  destruct (c =? sep)%N; [discriminate|].
  destruct (split s sep); discriminate.
Qed.

Lemma join_split (s : str) (sep : char) : join [sep] (split s sep) = s.
Proof.
  induction s as [|c s IH]; simpl; [reflexivity|].
  destruct (c =? sep)%N eqn:E.
  - apply N.eqb_eq in E. subst c.
    pose proof (split_nonempty s sep) as Hne.
    destruct (split s sep) as [|w ws] eqn:Es; [congruence|].
    simpl. simpl in IH. rewrite IH. reflexivity.
  - pose proof (split_nonempty s sep) as Hne.
    destruct (split s sep) as [|w ws] eqn:Es; [congruence|].
    simpl in *. destruct ws; simpl; rewrite <- IH; reflexivity.
Qed.

Lemma split_no_sep (s : str) (sep : char) :
  Forall (Forall (fun c => c <> sep)) (split s sep).
Proof.
  induction s as [|c s IH]; simpl; [repeat constructor|].
  destruct (c =? sep)%N eqn:E.
  - constructor; [constructor | exact IH].
  - apply N.eqb_neq in E.
    destruct (split s sep) as [|w ws]; [repeat constructor; assumption|].
    inversion IH; subst. constructor; [constructor|]; assumption.
Qed.

Lemma split_line (w : str) (sep : char) :
  Forall (fun c => c <> sep) w -> split w sep = [w].
Proof.
  induction 1 as [|c w Hc _ IH]; simpl; [reflexivity|].
  apply N.eqb_neq in Hc. rewrite Hc, IH. reflexivity.
Qed.

Lemma split_app_sep (w rest : str) (sep : char) :
  Forall (fun c => c <> sep) w ->
  split (w ++ sep :: rest) sep = w :: split rest sep.
Proof.
  induction 1 as [|c w Hc _ IH]; simpl.
  - rewrite N.eqb_refl. reflexivity.
  - apply N.eqb_neq in Hc. rewrite Hc, IH. reflexivity.
Qed.

Lemma split_join (parts : list str) (sep : char) :
  parts <> [] ->
  Forall (Forall (fun c => c <> sep)) parts ->
  split (join [sep] parts) sep = parts.
Proof.
  intros Hne H. revert Hne.
  induction H as [|w ws Hw Hws IH]; intros Hne;
    [exfalso; apply Hne; reflexivity|].
  destruct ws as [|w' ws'].
  - simpl. apply split_line, Hw.
  - change (join [sep] (w :: w' :: ws')) with (w ++ sep :: join [sep] (w' :: ws')).
    rewrite split_app_sep by exact Hw.
    rewrite IH by discriminate. reflexivity.
Qed.

(** The first regular expression, read as a regular expression. *)
Lemma re_match_ws_quote_iff (line : str) :
  re_match_ws_quote line = true <->
  exists ws rest,
    ws <> [] /\ Forall (fun c => isspace c = true) ws /\
    line = ws ++ QUOTE :: rest.
Proof.
  unfold re_match_ws_quote. split.
  - destruct line as [|c tl]; [discriminate|].
    rewrite andb_true_iff, startswith_iff. intros [Hc [t Ht]].
    exists (c :: takewhile isspace tl), t. split; [discriminate|]. split.
    + constructor; [exact Hc | apply takewhile_all].
    + simpl. f_equal. rewrite <- (takewhile_dropwhile isspace tl) at 1.
      unfold lstrip in Ht. rewrite Ht. reflexivity.
  - intros [ws [rest [Hne [Hws ->]]]].
    destruct Hws as [|c ws Hc Hws]; [congruence|].
    simpl. rewrite Hc. simpl. unfold lstrip.
    rewrite dropwhile_all by exact Hws. reflexivity.
Qed.

(** The operations on a few inputs. *)

Example split_keeps_last_empty_line :
  split (lit "a" ++ [NEWLINE] ++ lit "b" ++ [NEWLINE]) NEWLINE
  = [lit "a"; lit "b"; []].
Proof. reflexivity. Qed.

Example split_empty_text : split [] NEWLINE = [[]].
Proof. reflexivity. Qed.

Example strip_tabs_and_no_break_space :
  strip ([9%N; 160%N] ++ lit "x y" ++ [32%N; 13%N]) = lit "x y".
Proof. reflexivity. Qed.

Example rstrip_all_commas : rstrip_chars (lit "f(a,,") (lit ",") = lit "f(a".
Proof. reflexivity. Qed.

Example contains_inside : contains (lit "  let x = 1;") (lit "let ") = true.
Proof. reflexivity. Qed.

Example endswith_longer_suffix : endswith (lit ";") (lit ");") = false.
Proof. reflexivity. Qed.

Example ws_quote_matches :
  re_match_ws_quote (lit "  " ++ [9%N; QUOTE] ++ lit "x") = true /\
  re_match_ws_quote (QUOTE :: lit "x") = false /\
  re_match_ws_quote (lit "  x" ++ [QUOTE]) = false.
Proof. repeat split; reflexivity. Qed.

Example count_in_decimal : str_of_nat 120 = lit "120" /\ str_of_nat 0 = lit "0".
Proof. split; reflexivity. Qed.

End PyStrFacts.

Import PyStrFacts.

(* ================================================================== *)
(** * Facts about the loop *)
(* ================================================================== *)

Module RewriterFacts.

(** The inner loop returns the longest run of continuation lines. *)
Lemma look_ahead_run (rest : list str) (j : nat) (acc : list str) :
  exists run tail,
    rest = run ++ tail /\
    Forall (fun l => is_continuation l = true) run /\
    (forall l t, tail = l :: t -> is_continuation l = false) /\
    look_ahead rest j acc = (j + length run, acc ++ run).
Proof.
  revert j acc. induction rest as [|l rest IH]; intros j acc; simpl.
  - exists [], []. repeat split; try constructor; try discriminate.
    rewrite Nat.add_0_r, app_nil_r. reflexivity.
  - destruct (is_continuation l) eqn:E.
    + destruct (IH (j + 1) (acc ++ [l])) as [run [tail [-> [Hr [Ht Hl]]]]].
      exists (l :: run), tail. repeat split; auto.
      rewrite Hl, <- app_assoc. simpl. f_equal. lia.
    + exists [], (l :: rest). repeat split; try constructor.
      * intros l' t Heq. inversion Heq; subst. exact E.
      * rewrite Nat.add_0_r, app_nil_r. reflexivity.
Qed.

(** One iteration, case by case. *)
Lemma body_unrelated (lines : list str) (st : state) :
  is_candidate_start (nth (i st) lines []) = false ->
  body lines st =
  {| i := i st + 1; fixed_lines := fixed_lines st ++ [nth (i st) lines []] |}.
Proof. unfold body. intros ->. reflexivity. Qed.

Lemma body_block (lines : list str) (st : state) :
  is_candidate_start (nth (i st) lines []) = true ->
  exists run tail,
    skipn (i st + 1) lines = run ++ tail /\
    Forall (fun l => is_continuation l = true) run /\
    (forall l t, tail = l :: t -> is_continuation l = false) /\
    continuation_lines_at lines (i st) = run /\
    body lines st =
    {| i := i st + 1 + length run;
       fixed_lines :=
         fixed_lines st ++ reconstruct (nth (i st) lines []) run |}.
Proof.
  intros Hc.
  destruct (look_ahead_run (skipn (i st + 1) lines) (i st + 1) [])
    as [run [tail [Hs [Hr [Ht Hl]]]]].
  exists run, tail. repeat split; auto.
  - unfold continuation_lines_at. rewrite Hl. reflexivity.
  - unfold body. rewrite Hc, Hl. simpl.
    destruct run as [|r run']; [rewrite Nat.add_0_r; reflexivity|].
    f_equal. unfold reconstruct.
    rewrite <- !app_assoc. reflexivity.
Qed.

Lemma length_reconstruct (line : str) (run : list str) :
  length (reconstruct line run) = 1 + length run.
Proof.
  destruct run as [|r run]; [reflexivity|].
  unfold reconstruct.
  change (S (length (removelast (r :: run) ++ [close_last (last (r :: run) [])]))
          = 1 + length (r :: run)).
  rewrite length_app. simpl length at 2.
  rewrite Nat.add_1_r, length_removelast_snoc by discriminate. reflexivity.
Qed.

(** Every iteration moves [i] forward and stays within the lines. *)
Lemma body_advances (lines : list str) (st : state) :
  i st < length lines ->
  i st < i (body lines st) <= length lines.
Proof.
  intros Hlt.
  destruct (is_candidate_start (nth (i st) lines [])) eqn:Hc.
  - destruct (body_block lines st Hc) as [run [tail [Hs [_ [_ [_ ->]]]]]].
    simpl. apply (f_equal (@length str)) in Hs.
    rewrite length_skipn, length_app in Hs. lia.
  - rewrite (body_unrelated lines st Hc). simpl. lia.
Qed.

Lemma while_loop_exits (fuel : nat) (lines : list str) (st : state) :
  i st <= length lines ->
  length lines - i st <= fuel ->
  i (while_loop fuel lines st) = length lines.
Proof.
  revert st. induction fuel as [|fuel IH]; intros st Hle Hfuel; simpl.
  - lia.
  - destruct (i st <? length lines) eqn:Ht.
    + apply Nat.ltb_lt in Ht.
      pose proof (body_advances lines st Ht) as Hadv.
      apply IH; lia.
    + apply Nat.ltb_ge in Ht. lia.
Qed.

(** Loop invariants. *)
Lemma while_loop_invariant (Inv : state -> Prop) (lines : list str) :
  (forall st, i st < length lines -> Inv st -> Inv (body lines st)) ->
  forall fuel st, Inv st -> Inv (while_loop fuel lines st).
Proof.
  intros Hstep. induction fuel as [|fuel IH]; intros st Hst; simpl; [exact Hst|].
  destruct (i st <? length lines) eqn:Ht; [|exact Hst].
  apply IH, Hstep; [apply Nat.ltb_lt, Ht | exact Hst].
Qed.

(** The loop appends as many lines as it consumes. *)
Lemma while_loop_length (fuel : nat) (lines : list str) (st : state) :
  length (fixed_lines st) = i st ->
  length (fixed_lines (while_loop fuel lines st)) = i (while_loop fuel lines st).
Proof.
  apply (while_loop_invariant (fun st => length (fixed_lines st) = i st)).
  clear st. intros st Hlt Hinv.
  destruct (is_candidate_start (nth (i st) lines [])) eqn:Hc.
  - destruct (body_block lines st Hc) as [run [tail [_ [_ [_ [_ ->]]]]]].
    simpl. rewrite length_app, length_reconstruct. lia.
  - rewrite (body_unrelated lines st Hc). simpl.
    rewrite length_app. simpl. lia.
Qed.

Lemma length_rewrite_lines (lines : list str) :
  length (rewrite_lines lines) = length lines.
Proof.
  unfold rewrite_lines.
  rewrite while_loop_length by reflexivity.
  apply while_loop_exits; simpl; lia.
Qed.

(** Without a candidate-start the loop copies the lines. *)
Lemma rewrite_lines_fixpoint (lines : list str) :
  Forall not_candidate lines -> rewrite_lines lines = lines.
Proof.
  intros Hnc. unfold rewrite_lines.
  assert (Hinv : forall fuel st,
             (i st <= length lines /\ fixed_lines st = firstn (i st) lines) ->
             let st' := while_loop fuel lines st in
             i st' <= length lines /\ fixed_lines st' = firstn (i st') lines).
  { intros fuel.
    apply (while_loop_invariant
             (fun st => i st <= length lines /\
                        fixed_lines st = firstn (i st) lines)).
    intros st Hlt [_ Hfix].
    assert (Hline : is_candidate_start (nth (i st) lines []) = false).
    { rewrite Forall_forall in Hnc. apply Hnc, nth_In, Hlt. }
    rewrite (body_unrelated lines st Hline). simpl. split; [lia|].
    rewrite Hfix. symmetry. apply firstn_snoc_nth, Hlt. }
  destruct (Hinv (length lines) {| i := 0; fixed_lines := [] |}) as [_ Hfix].
  { simpl. split; [lia | reflexivity]. }
  rewrite Hfix, while_loop_exits by (simpl; lia).
  apply firstn_all.
Qed.

(** ** Which lines can be candidate-starts *)

Lemma is_candidate_start_excluded (l : str) :
  is_candidate_start l =
  re_match_ws_quote l && negb (existsb (contains l) EXCLUDED).
Proof.
  unfold is_candidate_start, EXCLUDED. simpl existsb.
  rewrite !negb_orb. simpl negb. rewrite andb_true_r, !andb_assoc.
  reflexivity.
Qed.

Lemma excluded_not_candidate (l sub : str) :
  In sub EXCLUDED -> contains l sub = true -> is_candidate_start l = false.
Proof.
  intros Hin Hc. rewrite is_candidate_start_excluded.
  replace (existsb (contains l) EXCLUDED) with true.
  - apply andb_false_r.
  - symmetry. apply existsb_exists. exists sub. split; assumption.
Qed.

Lemma macro_not_candidate (l : str) :
  contains l MACRO = true -> is_candidate_start l = false.
Proof. apply excluded_not_candidate. left. reflexivity. Qed.

Lemma println_open_not_candidate (line : str) :
  is_candidate_start (println_open line) = false.
Proof.
  apply macro_not_candidate. unfold println_open.
  change (lit "ic_cdk::println!(") with (MACRO ++ lit "(").
  rewrite <- app_assoc. apply contains_middle.
Qed.

Lemma println_single_not_candidate (line : str) :
  is_candidate_start (println_single line) = false.
Proof.
  apply macro_not_candidate. unfold println_single.
  change (lit "ic_cdk::println!(") with (MACRO ++ lit "(").
  rewrite <- app_assoc. apply contains_middle.
Qed.

(** ** Closing the last line of a block keeps it out of the candidates *)

Lemma contains_none (s t : str) (h : char) :
  Forall (fun c => c <> h) s -> contains s (h :: t) = false.
Proof.
  induction 1 as [|c s Hc _ IH]; simpl; [reflexivity|].
  apply N.eqb_neq in Hc. rewrite Hc, IH. reflexivity.
Qed.

Lemma startswith_trim (q r x sub : str) :
  Forall (fun c => c <> COMMA) sub ->
  startswith (q ++ COMMA :: r) sub = true ->
  startswith (q ++ x) sub = true.
Proof.
  intros Hsub. revert q.
  induction Hsub as [|h t Hh _ IH]; intros q; [reflexivity|].
  destruct q as [|a q]; cbn [app startswith].
  - rewrite andb_true_iff, N.eqb_eq. intros [E _]. congruence.
  - rewrite !andb_true_iff. intros [E H]. split; [exact E | exact (IH q H)].
Qed.

Lemma contains_trim (p r x sub : str) :
  plain_word sub = true ->
  Forall (fun c => c = COMMA \/ isspace c = true) r ->
  contains (p ++ COMMA :: r) sub = true ->
  contains (p ++ x) sub = true.
Proof.
  intros Hw Hr. destruct sub as [|h t]; [discriminate|].
  unfold plain_word in Hw. apply andb_true_iff in Hw. destruct Hw as [Hh Hall].
  apply negb_true_iff in Hh.
  assert (Hsub : Forall (fun c => c <> COMMA) (h :: t)).
  { apply Forall_forall. intros c Hc.
    rewrite forallb_forall in Hall. specialize (Hall c Hc).
    apply negb_true_iff, N.eqb_neq in Hall. exact Hall. }
  assert (Hhc : h <> COMMA) by (inversion Hsub; assumption).
  induction p as [|a p IH].
  - intros Habs. exfalso.
    rewrite contains_none in Habs; [discriminate|].
    constructor; [congruence|].
    eapply Forall_impl; [|exact Hr]. simpl.
    intros c [-> | Hc]; [congruence | intros ->; congruence].
  - simpl app. simpl contains. rewrite !orb_true_iff. intros [H | H].
    + left. exact (@startswith_trim (a :: p) r x (h :: t) Hsub H).
    + right. exact (IH H).
Qed.

Lemma re_match_ws_quote_trim (p x : str) :
  re_match_ws_quote (p ++ lit ");") = true ->
  re_match_ws_quote (p ++ x) = true.
Proof.
  destruct p as [|c p]; [discriminate|]. simpl.
  rewrite !andb_true_iff. intros [Hc H]. split; [exact Hc|].
  revert H. unfold lstrip. induction p as [|a p IH]; [discriminate|].
  simpl. destruct (isspace a); [exact IH | trivial].
Qed.

Lemma rstrip_comma_split (l : str) :
  endswith (strip l) (lit ",") = true ->
  exists p cs w,
    l = p ++ cs ++ w /\ cs <> [] /\
    Forall (fun c => c = COMMA) cs /\
    Forall (fun c => isspace c = true) w /\
    rstrip_chars (rstrip l) (lit ",") = p.
Proof.
  unfold endswith, strip, rstrip. rewrite rev_involutive.
  intros H. apply startswith_iff in H. destruct H as [t Ht].
  change (rev (lit ",") ++ t) with (COMMA :: t) in Ht.
  set (is_comma := fun c : char => existsb (N.eqb c) (lit ",")).
  assert (Hd : dropwhile isspace (rev l)
               = COMMA :: t ++ rev (takewhile isspace l)).
  { rewrite <- (takewhile_dropwhile isspace l) at 1.
    rewrite rev_app_distr. fold (lstrip l).
    rewrite dropwhile_app_keep by (rewrite Ht; discriminate).
    rewrite Ht. reflexivity. }
  exists (rev (dropwhile is_comma (dropwhile isspace (rev l)))),
         (rev (takewhile is_comma (dropwhile isspace (rev l)))),
         (rev (takewhile isspace (rev l))).
  repeat split.
  - rewrite <- !rev_app_distr, <- app_assoc, !takewhile_dropwhile.
    symmetry. apply rev_involutive.
  - rewrite Hd. simpl. intros E. apply (f_equal (@length char)) in E.
    rewrite length_app in E. simpl in E. lia.
  - apply Forall_rev.
    eapply Forall_impl; [|apply takewhile_all]. simpl.
    intros c Hc. unfold is_comma in Hc. simpl in Hc.
    rewrite orb_false_r in Hc. apply N.eqb_eq in Hc. exact Hc.
  - apply Forall_rev, takewhile_all.
  - unfold rstrip_chars. rewrite rev_involutive. reflexivity.
Qed.

Lemma plain_excluded : forallb plain_word EXCLUDED = true.
Proof. reflexivity. Qed.

Lemma close_last_not_candidate (l : str) :
  is_continuation l = true ->
  is_candidate_start l = false ->
  is_candidate_start (close_last l) = false.
Proof.
  unfold close_last, is_continuation.
  destruct (endswith (strip l) (lit ");")) eqn:E; [intros _ H; exact H|].
  simpl. rewrite orb_false_r. intros Hcomma Hnc.
  destruct (rstrip_comma_split l Hcomma) as [p [cs [w [Hl [Hne [Hcs [Hw ->]]]]]]].
  destruct cs as [|c0 cs]; [exfalso; auto|].
  inversion Hcs as [|? ? Hc0 Hcs']; subst c0.
  assert (Hr : Forall (fun c => c = COMMA \/ isspace c = true) (cs ++ w)).
  { apply Forall_app. split.
    - eapply Forall_impl; [|exact Hcs']. simpl. auto.
    - eapply Forall_impl; [|exact Hw]. simpl. auto. }
  destruct (is_candidate_start (p ++ lit ");")) eqn:Hcand; [|reflexivity].
  exfalso. rewrite is_candidate_start_excluded in Hcand, Hnc.
  apply andb_true_iff in Hcand. destruct Hcand as [Hre Hex].
  rewrite Hl in Hnc. simpl app in Hnc.
  rewrite (@re_match_ws_quote_trim p (COMMA :: cs ++ w) Hre) in Hnc.
  rewrite andb_true_l in Hnc. apply negb_false_iff, existsb_exists in Hnc.
  destruct Hnc as [sub [Hin Hsub]].
  apply negb_true_iff in Hex.
  assert (Habs : existsb (contains (p ++ lit ");")) EXCLUDED = true).
  { apply existsb_exists. exists sub. split; [exact Hin|].
    apply (@contains_trim p (cs ++ w) (lit ");") sub); auto.
    pose proof plain_excluded as Hp. rewrite forallb_forall in Hp.
    apply Hp, Hin. }
  congruence.
Qed.

(** ** What a block appends *)

Lemma reconstruct_not_candidate (line : str) (run : list str) :
  Forall (fun l => is_continuation l = true) run ->
  Forall not_candidate run ->
  Forall not_candidate (reconstruct line run).
Proof.
  intros Hcont Hnc. destruct run as [|r run].
  - constructor; [apply println_single_not_candidate | constructor].
  - unfold reconstruct. constructor; [apply println_open_not_candidate|].
    apply Forall_app. split; [apply Forall_removelast, Hnc|].
    constructor; [|constructor].
    apply close_last_not_candidate.
    + apply (Forall_last _ (fun l => is_continuation l = true));
        [exact Hcont | discriminate].
    + apply (Forall_last _ not_candidate); [exact Hnc | discriminate].
Qed.

Lemma lit_no_newline (s : string) :
  forallb (fun c => negb (c =? NEWLINE)%N) (lit s) = true ->
  no_newline (lit s).
Proof.
  intros H. apply Forall_forall. intros c Hc.
  rewrite forallb_forall in H. specialize (H c Hc).
  apply negb_true_iff, N.eqb_neq in H. exact H.
Qed.

Lemma close_last_no_newline (l : str) :
  no_newline l -> no_newline (close_last l).
Proof.
  intros H. unfold close_last.
  destruct (endswith (strip l) (lit ");")); [exact H|].
  apply Forall_app. split.
  - apply rstrip_chars_keeps, rstrip_keeps, H.
  - apply lit_no_newline. reflexivity.
Qed.

Lemma reconstruct_no_newline (line : str) (run : list str) :
  no_newline line -> Forall no_newline run ->
  Forall no_newline (reconstruct line run).
Proof.
  intros Hl Hrun.
  assert (Hopen : no_newline (lit "ic_cdk::println!("))
    by (apply lit_no_newline; reflexivity).
  assert (Hclose : no_newline (lit ");"))
    by (apply lit_no_newline; reflexivity).
  destruct run as [|r run].
  - constructor; [|constructor]. unfold println_single.
    repeat (apply Forall_app; split); auto.
    + apply takewhile_keeps, Hl.
    + destruct (endswith (strip line) (lit ";"));
        [apply Forall_removelast|]; apply strip_keeps, Hl.
  - unfold reconstruct. constructor.
    + unfold println_open. repeat (apply Forall_app; split); auto.
      * apply takewhile_keeps, Hl.
      * apply strip_keeps, Hl.
    + apply Forall_app. split; [apply Forall_removelast, Hrun|].
      constructor; [|constructor]. apply close_last_no_newline.
      apply (Forall_last _ no_newline); [exact Hrun | discriminate].
Qed.

Lemma Forall_nth_default (A : Type) (P : A -> Prop) (l : list A) (k : nat) (d : A) :
  Forall P l -> k < length l -> P (nth k l d).
Proof.
  intros H Hk. rewrite Forall_forall in H. apply H, nth_In, Hk.
Qed.

Lemma rewrite_lines_no_newline (lines : list str) :
  Forall no_newline lines -> Forall no_newline (rewrite_lines lines).
Proof.
  intros Hall. unfold rewrite_lines.
  apply (while_loop_invariant (fun st => Forall no_newline (fixed_lines st)));
    [|constructor].
  intros st Hlt Hinv.
  pose proof (Forall_nth_default _ _ lines (i st) [] Hall Hlt) as Hline.
  destruct (is_candidate_start (nth (i st) lines [])) eqn:Hc.
  - destruct (body_block lines st Hc) as [run [tail [Hs [_ [_ [_ ->]]]]]].
    simpl. apply Forall_app. split; [exact Hinv|].
    apply reconstruct_no_newline; [exact Hline|].
    assert (Hsk : Forall no_newline (skipn (i st + 1) lines)).
    { rewrite <- (firstn_skipn (i st + 1) lines) in Hall.
      apply Forall_app in Hall. apply Hall. }
    rewrite Hs in Hsk. apply Forall_app in Hsk. apply Hsk.
  - rewrite (body_unrelated lines st Hc). simpl.
    apply Forall_app. split; [exact Hinv | constructor; [exact Hline | constructor]].
Qed.

(** ** The lines consumed as continuations *)

Lemma consumed_by_block (lines : list str) (st : state) :
  i st < length lines ->
  is_candidate_start (nth (i st) lines []) = true ->
  consumed_by lines st = continuation_lines_at lines (i st).
Proof.
  intros Hlt Hc. unfold consumed_by.
  apply Nat.ltb_lt in Hlt. rewrite Hlt, Hc. reflexivity.
Qed.

Lemma flat_map_seq_shift (A : Type) (f : nat -> list A) (n : nat) :
  flat_map f (seq 1 n) = flat_map (fun k => f (S k)) (seq 0 n).
Proof.
  rewrite <- seq_shift. induction (seq 0 n) as [|k l IH]; simpl;
    [reflexivity | rewrite IH; reflexivity].
Qed.

Lemma consumed_unfold (lines : list str) (st : state) (n : nat) :
  i st < length lines ->
  flat_map (fun k => consumed_by lines (while_loop k lines st)) (seq 0 (S n))
  = consumed_by lines st
      ++ flat_map (fun k => consumed_by lines (while_loop k lines (body lines st)))
                  (seq 0 n).
Proof.
  intros Hlt. apply Nat.ltb_lt in Hlt.
  change (seq 0 (S n)) with (0 :: seq 1 n).
  cbn [flat_map while_loop]. f_equal.
  rewrite flat_map_seq_shift. apply flat_map_ext. intros k.
  cbn [while_loop]. rewrite Hlt. reflexivity.
Qed.

(** If no consumed continuation line is itself of candidate shape, no
    line the loop produces is. *)
Lemma while_loop_not_candidate (lines : list str) (fuel : nat) (st : state) :
  Forall not_candidate (fixed_lines st) ->
  Forall not_candidate
    (flat_map (fun k => consumed_by lines (while_loop k lines st)) (seq 0 fuel)) ->
  Forall not_candidate (fixed_lines (while_loop fuel lines st)).
Proof.
  revert st. induction fuel as [|fuel IH]; intros st Hacc Hcons; [exact Hacc|].
  cbn [while_loop]. destruct (i st <? length lines) eqn:Ht; [|exact Hacc].
  apply Nat.ltb_lt in Ht.
  rewrite (consumed_unfold lines st fuel Ht) in Hcons.
  apply Forall_app in Hcons. destruct Hcons as [Hhere Hlater].
  apply IH; [|exact Hlater].
  destruct (is_candidate_start (nth (i st) lines [])) eqn:Hc.
  - rewrite (consumed_by_block lines st Ht Hc) in Hhere.
    destruct (body_block lines st Hc) as [run [tail [_ [Hrun [_ [Hat ->]]]]]].
    simpl. apply Forall_app. split; [exact Hacc|].
    apply reconstruct_not_candidate; [exact Hrun|].
    rewrite <- Hat. exact Hhere.
  - rewrite (body_unrelated lines st Hc). simpl.
    apply Forall_app. split; [exact Hacc | constructor; [exact Hc | constructor]].
Qed.

Lemma rewrite_lines_not_candidate (lines : list str) :
  Forall not_candidate (consumed_continuations lines) ->
  Forall not_candidate (rewrite_lines lines).
Proof.
  intros H. unfold rewrite_lines.
  apply while_loop_not_candidate; [constructor | exact H].
Qed.

(** ** From lines to text *)

Lemma rewrite_content_fixpoint (content : str) :
  Forall not_candidate (split content NEWLINE) ->
  rewrite_content content = content.
Proof.
  intros H. unfold rewrite_content.
  rewrite (rewrite_lines_fixpoint _ H). apply join_split.
Qed.

Lemma split_rewrite_content (content : str) :
  split (rewrite_content content) NEWLINE
  = rewrite_lines (split content NEWLINE).
Proof.
  unfold rewrite_content. apply split_join.
  - intros E. apply (f_equal (@length str)) in E.
    rewrite length_rewrite_lines in E.
    destruct (split content NEWLINE) eqn:Es; [|discriminate].
    exact (split_nonempty content NEWLINE Es).
  - apply rewrite_lines_no_newline, split_no_sep.
Qed.

(** ** More fuel changes nothing *)

Lemma while_loop_done (fuel : nat) (lines : list str) (st : state) :
  length lines <= i st -> while_loop fuel lines st = st.
Proof.
  intros H. destruct fuel; [reflexivity|]. simpl.
  apply Nat.ltb_ge in H. rewrite H. reflexivity.
Qed.

Lemma while_loop_add (a b : nat) (lines : list str) (st : state) :
  while_loop (a + b) lines st = while_loop b lines (while_loop a lines st).
Proof.
  revert st. induction a as [|a IH]; intros st; simpl; [reflexivity|].
  destruct (i st <? length lines) eqn:E; [apply IH|].
  symmetry. apply while_loop_done, Nat.ltb_ge, E.
Qed.

(** ** The shape of the lines of a block *)

Lemma endswith_close_not_comma (s : str) :
  endswith s (lit ");") = true -> endswith s (lit ",") = false.
Proof.
  unfold endswith.
  change (rev (lit ");")) with [59%N; 41%N].
  change (rev (lit ",")) with [COMMA].
  destruct (rev s) as [|a r]; [discriminate|].
  cbn [startswith]. rewrite andb_true_iff, N.eqb_eq.
  intros [-> _]. reflexivity.
Qed.

Lemma is_continuation_comma (l : str) :
  endswith (strip l) (lit ",") = true -> is_continuation l = true.
Proof. unfold is_continuation. intros ->. reflexivity. Qed.

Lemma is_continuation_close (l : str) :
  endswith (strip l) (lit ");") = true ->
  is_continuation l = negb (startswith (strip l) (lit ")")).
Proof.
  intros H. unfold is_continuation.
  rewrite (endswith_close_not_comma _ H), H. reflexivity.
Qed.

Lemma close_last_comma (l : str) :
  endswith (strip l) (lit ",") = true ->
  close_last l = rstrip_chars (rstrip l) (lit ",") ++ lit ");".
Proof.
  intros H. unfold close_last.
  destruct (endswith (strip l) (lit ");")) eqn:E; [|reflexivity].
  rewrite (endswith_close_not_comma _ E) in H. discriminate.
Qed.

Lemma close_last_closed (l : str) :
  endswith (strip l) (lit ");") = true -> close_last l = l.
Proof. intros H. unfold close_last. rewrite H. reflexivity. Qed.

Lemma nth_at (pre : list str) (line : str) (tl : list str) :
  nth (length pre) (pre ++ line :: tl) [] = line.
Proof. induction pre as [|x pre IH]; simpl; [reflexivity | exact IH]. Qed.

Lemma skipn_at (pre : list str) (line : str) (tl : list str) :
  skipn (length pre + 1) (pre ++ line :: tl) = tl.
Proof.
  rewrite Nat.add_1_r.
  induction pre as [|x pre IH]; simpl; [reflexivity | exact IH].
Qed.

Lemma reconstruct_continuation (first : str) (run : list str)
      (k : nat) (line : str) :
  nth_error run k = Some line ->
  nth_error (reconstruct first run) (S k) = Some line \/
  nth_error (reconstruct first run) (S k) = Some (close_last line).
Proof.
  destruct run as [|r run]; [destruct k; discriminate|].
  unfold reconstruct. cbn [nth_error].
  revert r k. induction run as [|r' run IH]; intros r k H.
  - destruct k as [|k]; [|destruct k; discriminate].
    inversion H; subst. right. reflexivity.
  - destruct k as [|k].
    + inversion H; subst. left. reflexivity.
    + exact (IH r' k H).
Qed.

Lemma reconstruct_nth (first : str) (run : list str) (m : nat) :
  m < length run ->
  nth (S m) (reconstruct first run) [] =
  if S m <? length run then nth m run [] else close_last (nth m run []).
Proof.
  destruct run as [|r run]; [simpl; lia|].
  unfold reconstruct. cbn [nth].
  revert r m. induction run as [|r' run IH]; intros r m Hm.
  - destruct m as [|m]; [reflexivity | simpl in Hm; lia].
  - destruct m as [|m]; [reflexivity|].
    assert (Hm' : m < length (r' :: run)) by (simpl in Hm |- *; lia).
    exact (IH r' m Hm').
Qed.

Lemma body_continuation (lines : list str) (st : state) (m : nat) :
  is_candidate_start (nth (i st) lines []) = true ->
  m < length (continuation_lines_at lines (i st)) ->
  length (fixed_lines (body lines st))
  = length (fixed_lines st) + 1 + length (continuation_lines_at lines (i st)) /\
  nth (length (fixed_lines st) + 1 + m) (fixed_lines (body lines st)) [] =
  if m + 1 <? length (continuation_lines_at lines (i st))
  then nth (i st + 1 + m) lines []
  else close_last (nth (i st + 1 + m) lines []).
Proof.
  intros Hc Hm.
  destruct (body_block lines st Hc) as [run [tail [Hs [_ [_ [Hrun ->]]]]]].
  rewrite Hrun in *. cbn [fixed_lines].
  assert (Hin : nth (i st + 1 + m) lines [] = nth m run []).
  { rewrite <- (firstn_skipn (i st + 1) lines) at 1.
    assert (Hlen : i st + 1 <= length lines).
    { apply (f_equal (@length str)) in Hs.
      rewrite length_skipn, length_app in Hs. lia. }
    rewrite app_nth2; rewrite length_firstn; [|lia].
    replace (i st + 1 + m - Nat.min (i st + 1) (length lines)) with m by lia.
    rewrite Hs. apply app_nth1, Hm. }
  split.
  - rewrite length_app, length_reconstruct. lia.
  - rewrite app_nth2 by lia.
    replace (length (fixed_lines st) + 1 + m - length (fixed_lines st))
      with (S m) by lia.
    rewrite reconstruct_nth by exact Hm.
    rewrite Hin, Nat.add_1_r. reflexivity.
Qed.

(** ** A candidate among the consumed lines survives the first run *)

Lemma startswith_swap (q x y sub : str) :
  Forall (fun c => ~ In c sub) x ->
  startswith (q ++ x) sub = true ->
  startswith (q ++ y) sub = true.
Proof.
  intros Hx. revert q. induction sub as [|h t IH]; intros q; [reflexivity|].
  assert (Ht : Forall (fun c => ~ In c t) x).
  { eapply Forall_impl; [|exact Hx]. simpl. intros c Hc Hin. apply Hc. right. exact Hin. }
  destruct q as [|a q]; cbn [app].
  - destruct x as [|c x]; [discriminate|]. cbn [startswith].
    rewrite andb_true_iff, N.eqb_eq. intros [E _]. exfalso.
    inversion Hx as [|? ? Hc _]; subst. apply Hc. left. reflexivity.
  - cbn [startswith]. rewrite !andb_true_iff.
    intros [E H]. split; [exact E | exact (IH Ht q H)].
Qed.

Lemma contains_swap (p x y sub : str) :
  sub <> [] ->
  Forall (fun c => ~ In c sub) x ->
  contains (p ++ x) sub = true ->
  contains (p ++ y) sub = true.
Proof.
  intros Hne Hx. destruct sub as [|h t]; [exfalso; auto|].
  induction p as [|a p IH].
  - intros Habs. exfalso.
    rewrite contains_none in Habs; [discriminate|].
    eapply Forall_impl; [|exact Hx]. simpl.
    intros c Hc E. apply Hc. left. symmetry. exact E.
  - cbn [app contains]. rewrite !orb_true_iff. intros [H | H].
    + left. exact (startswith_swap (a :: p) x y (h :: t) Hx H).
    + right. exact (IH H).
Qed.

Lemma re_match_ws_quote_closed (p r : str) :
  re_match_ws_quote (p ++ COMMA :: r) = true ->
  re_match_ws_quote (p ++ lit ");") = true.
Proof.
  destruct p as [|c p]; [discriminate|]. cbn [app re_match_ws_quote].
  rewrite !andb_true_iff. intros [Hc H]. split; [exact Hc|].
  revert H. unfold lstrip. induction p as [|a p IH]; [discriminate|].
  cbn [app dropwhile]. destruct (isspace a); [exact IH | trivial].
Qed.

Lemma close_last_candidate (l : str) :
  is_continuation l = true ->
  is_candidate_start l = true ->
  is_candidate_start (close_last l) = true.
Proof.
  unfold close_last, is_continuation.
  destruct (endswith (strip l) (lit ");")) eqn:E; [intros _ H; exact H|].
  simpl. rewrite orb_false_r. intros Hcomma Hcand.
  destruct (rstrip_comma_split l Hcomma) as [p [cs [w [Hl [Hne [Hcs [Hw ->]]]]]]].
  destruct cs as [|c0 cs]; [exfalso; auto|].
  inversion Hcs as [|? ? Hc0 Hcs']; subst c0.
  rewrite is_candidate_start_excluded in Hcand |- *.
  apply andb_true_iff in Hcand. destruct Hcand as [Hre Hex].
  rewrite Hl in Hre. cbn [app] in Hre.
  rewrite (re_match_ws_quote_closed p (cs ++ w) Hre), andb_true_l.
  apply negb_true_iff in Hex. apply negb_true_iff.
  destruct (existsb (contains (p ++ lit ");")) EXCLUDED) eqn:Hnew; [|reflexivity].
  apply existsb_exists in Hnew. destruct Hnew as [sub [Hin Hsub]].
  assert (Hold : existsb (contains l) EXCLUDED = true); [|congruence].
  apply existsb_exists. exists sub. split; [exact Hin|].
  rewrite Hl.
  apply (contains_swap p (lit ");") ((COMMA :: cs) ++ w) sub); [| |exact Hsub].
  - intros ->. repeat (destruct Hin as [Hin | Hin]; [discriminate Hin|]).
    exact Hin.
  - assert (Hchk : forallb (fun s => forallb (fun c => negb (existsb (N.eqb c) s))
                                              (lit ");")) EXCLUDED = true)
      by reflexivity.
    rewrite forallb_forall in Hchk. specialize (Hchk sub Hin).
    rewrite forallb_forall in Hchk.
    apply Forall_forall. intros c Hc Hcin.
    specialize (Hchk c Hc). apply negb_true_iff in Hchk.
    assert (Habs : existsb (N.eqb c) sub = true); [|congruence].
    apply existsb_exists. exists c. split; [exact Hcin | apply N.eqb_refl].
Qed.

Lemma reconstruct_candidate (line : str) (run : list str) :
  Forall (fun l => is_continuation l = true) run ->
  Exists (fun l => is_candidate_start l = true) run ->
  Exists (fun l => is_candidate_start l = true) (reconstruct line run).
Proof.
  intros Hcont Hex. destruct run as [|r run]; [inversion Hex|].
  unfold reconstruct. apply Exists_cons_tl.
  rewrite (app_removelast_last [] (l := r :: run)) in Hex by discriminate.
  apply Exists_app in Hex. apply Exists_app.
  destruct Hex as [Hex | Hex]; [left; exact Hex | right].
  inversion Hex as [? ? Hlast | ? ? Habs]; [|inversion Habs]. subst.
  constructor. apply close_last_candidate; [|exact Hlast].
  apply (Forall_last _ (fun l => is_continuation l = true));
    [exact Hcont | discriminate].
Qed.

Lemma body_appends (lines : list str) (st : state) :
  exists more, fixed_lines (body lines st) = fixed_lines st ++ more.
Proof.
  destruct (is_candidate_start (nth (i st) lines [])) eqn:Hc.
  - destruct (body_block lines st Hc) as [run [tail [_ [_ [_ [_ ->]]]]]].
    eexists. reflexivity.
  - rewrite (body_unrelated lines st Hc). eexists. reflexivity.
Qed.

Lemma while_loop_appends (fuel : nat) (lines : list str) (st : state) :
  exists more, fixed_lines (while_loop fuel lines st) = fixed_lines st ++ more.
Proof.
  revert st. induction fuel as [|fuel IH]; intros st; cbn [while_loop].
  - exists []. symmetry. apply app_nil_r.
  - destruct (i st <? length lines).
    + destruct (IH (body lines st)) as [m1 H1].
      destruct (body_appends lines st) as [m2 H2].
      exists (m2 ++ m1). rewrite H1, H2, app_assoc. reflexivity.
    + exists []. symmetry. apply app_nil_r.
Qed.

Lemma while_loop_candidate (lines : list str) (fuel : nat) (st : state) :
  Exists (fun l => is_candidate_start l = true) (fixed_lines st) \/
  Exists (fun l => is_candidate_start l = true)
    (flat_map (fun k => consumed_by lines (while_loop k lines st)) (seq 0 fuel)) ->
  Exists (fun l => is_candidate_start l = true)
         (fixed_lines (while_loop fuel lines st)).
Proof.
  revert st. induction fuel as [|fuel IH]; intros st H.
  - destruct H as [H | H]; [exact H | inversion H].
  - cbn [while_loop]. destruct (i st <? length lines) eqn:Ht.
    + apply Nat.ltb_lt in Ht.
      rewrite (consumed_unfold lines st fuel Ht) in H.
      rewrite Exists_app in H. apply IH.
      destruct H as [H | [H | H]]; [left | left | right; exact H].
      * destruct (body_appends lines st) as [more ->].
        apply Exists_app. left. exact H.
      * destruct (is_candidate_start (nth (i st) lines [])) eqn:Hc.
        -- rewrite (consumed_by_block lines st Ht Hc) in H.
           destruct (body_block lines st Hc) as [run [tail [_ [Hrun [_ [Hat ->]]]]]].
           simpl. apply Exists_app. right.
           apply reconstruct_candidate; [exact Hrun|].
           rewrite <- Hat. exact H.
        -- unfold consumed_by in H. rewrite Hc, andb_false_r in H. inversion H.
    + destruct H as [H | H]; [exact H|]. exfalso.
      apply Exists_exists in H. destruct H as [l [Hin _]].
      apply in_flat_map in Hin. destruct Hin as [k [_ Hin]].
      rewrite while_loop_done in Hin by (apply Nat.ltb_ge, Ht).
      unfold consumed_by in Hin. rewrite Ht in Hin. exact Hin.
Qed.

(** ** A candidate-start is always rewritten *)

Lemma first_candidate (lines : list str) :
  Exists (fun l => is_candidate_start l = true) lines ->
  exists pre c tl,
    lines = pre ++ c :: tl /\
    Forall not_candidate pre /\ is_candidate_start c = true.
Proof.
  induction 1 as [c tl Hc | x tl _ IH].
  - exists [], c, tl. repeat split; [constructor | exact Hc].
  - destruct (is_candidate_start x) eqn:Hx.
    + exists [], x, tl. repeat split; [constructor | exact Hx].
    + destruct IH as [pre [c [tl' [-> [Hpre Hc]]]]].
      exists (x :: pre), c, tl'. repeat split;
        [constructor; assumption | exact Hc].
Qed.

Lemma while_loop_copies (pre : list str) (c : str) (tl : list str)
      (m : nat) (st : state) :
  Forall not_candidate pre ->
  i st + m <= length pre ->
  fixed_lines st = firstn (i st) pre ->
  while_loop m (pre ++ c :: tl) st =
  {| i := i st + m; fixed_lines := firstn (i st + m) pre |}.
Proof.
  intros Hpre. revert st. induction m as [|m IH]; intros st Hle Hfix.
  - cbn [while_loop]. rewrite Nat.add_0_r, <- Hfix. destruct st; reflexivity.
  - cbn [while_loop].
    assert (Hlt : i st < length (pre ++ c :: tl))
      by (rewrite length_app; simpl; lia).
    apply Nat.ltb_lt in Hlt. rewrite Hlt.
    assert (Hnth : nth (i st) (pre ++ c :: tl) [] = nth (i st) pre [])
      by (apply app_nth1; lia).
    assert (Hnc : is_candidate_start (nth (i st) (pre ++ c :: tl) []) = false).
    { rewrite Hnth. apply (Forall_nth_default _ not_candidate); [exact Hpre | lia]. }
    rewrite (body_unrelated _ st Hnc), IH; cbn [i fixed_lines]; try lia.
    + f_equal; [lia | f_equal; lia].
    + rewrite Hnth, Hfix. symmetry. apply firstn_snoc_nth. lia.
Qed.

Lemma rewrite_lines_changes (lines : list str) :
  Exists (fun l => is_candidate_start l = true) lines ->
  rewrite_lines lines <> lines.
Proof.
  intros Hex.
  destruct (first_candidate lines Hex) as [pre [c [tl [-> [Hpre Hc]]]]].
  unfold rewrite_lines.
  replace (length (pre ++ c :: tl)) with (length pre + (1 + length tl))
    by (rewrite length_app; reflexivity).
  rewrite while_loop_add.
  rewrite (while_loop_copies pre c tl (length pre) {| i := 0; fixed_lines := [] |}
             Hpre) by (simpl; lia || reflexivity).
  cbn [i Nat.add]. rewrite firstn_all.
  change (1 + length tl) with (S (length tl)). cbn [while_loop i].
  assert (Hlt : length pre < length (pre ++ c :: tl))
    by (rewrite length_app; simpl; lia).
  apply Nat.ltb_lt in Hlt. rewrite Hlt.
  set (st := {| i := length pre; fixed_lines := pre |}).
  assert (Hc' : is_candidate_start (nth (i st) (pre ++ c :: tl) []) = true)
    by (unfold st; cbn [i]; rewrite nth_at; exact Hc).
  destruct (body_block _ st Hc') as [run [tail [_ [_ [_ [_ Hb]]]]]].
  destruct (while_loop_appends (length tl) (pre ++ c :: tl)
                               (body (pre ++ c :: tl) st)) as [more Hm].
  rewrite Hm, Hb. unfold st. cbn [i fixed_lines]. rewrite nth_at.
  rewrite <- app_assoc. intros E. apply app_inv_head in E.
  assert (Hhead : exists w rest, reconstruct c run ++ more = w :: rest /\
                                 is_candidate_start w = false).
  { destruct run as [|r run]; eexists; eexists; (split; [reflexivity|]).
    - apply println_single_not_candidate.
    - apply println_open_not_candidate. }
  destruct Hhead as [w [rest [Hw Hnc]]]. rewrite Hw in E.
  inversion E; subst. congruence.
Qed.

Lemma unquoted_not_candidate (l : str) :
  startswith (lstrip l) [QUOTE] = false -> is_candidate_start l = false.
Proof.
  intros H. unfold is_candidate_start.
  replace (re_match_ws_quote l) with false; [reflexivity|].
  destruct l as [|c tl]; [reflexivity|]. simpl.
  unfold lstrip in H. simpl in H.
  destruct (isspace c); [symmetry; exact H | reflexivity].
Qed.

End RewriterFacts.

Import RewriterFacts.

(* ================================================================== *)
(** * Facts about [fix_missing_println] and [main] *)
(* ================================================================== *)

Module ScriptFacts.

Import Script.

(** ** What can be printed *)

Lemma printable_app (stdout_encodes : char -> bool) (a b : str) :
  printable stdout_encodes (a ++ b)
  = printable stdout_encodes a && printable stdout_encodes b.
Proof. apply forallb_app. Qed.

Lemma printable_fixed_line (stdout_encodes : char -> bool) (file_path : str) :
  printable stdout_encodes (lit "Fixed: " ++ file_path)
  = printable stdout_encodes file_path.
Proof. rewrite printable_app. reflexivity. Qed.

Lemma printable_error_line (stdout_encodes : char -> bool)
      (file_path : str) (e : exn) :
  printable stdout_encodes (error_line file_path e)
  = printable stdout_encodes file_path && printable stdout_encodes e.
Proof.
  unfold error_line. rewrite !printable_app.
  change (printable stdout_encodes (lit "Error processing ")) with true.
  change (printable stdout_encodes (lit ": ")) with true.
  reflexivity.
Qed.

Lemma printable_ascii (stdout_encodes : char -> bool) (text : str) :
  Forall (fun c => (c < 128)%N) text -> printable stdout_encodes text = true.
Proof.
  intros H. apply forallb_forall. intros c Hc.
  rewrite Forall_forall in H. specialize (H c Hc).
  apply N.ltb_lt in H. rewrite H. reflexivity.
Qed.

Lemma uint_digits_ascii (d : Decimal.uint) :
  Forall (fun c => (c < 128)%N) (lit (NilEmpty.string_of_uint d)).
Proof.
  induction d; simpl; constructor; try reflexivity; assumption.
Qed.

Lemma printable_str_of_nat (stdout_encodes : char -> bool) (n : nat) :
  printable stdout_encodes (str_of_nat n) = true.
Proof. apply printable_ascii, uint_digits_ascii. Qed.

Lemma printable_found_line (stdout_encodes : char -> bool) (n : nat) :
  printable stdout_encodes
    (lit "Found " ++ str_of_nat n ++ lit " Rust files to process...") = true.
Proof.
  rewrite !printable_app, printable_str_of_nat. reflexivity.
Qed.

Lemma printable_summary_line (stdout_encodes : char -> bool) (n : nat) :
  printable stdout_encodes (lit "Fixed " ++ str_of_nat n ++ lit " files") = true.
Proof.
  rewrite !printable_app, printable_str_of_nat. reflexivity.
Qed.

Section Files.

Variable FS : Type.
Variable stdout_encodes : char -> bool.
Variable encode_error : str -> exn.
Variable read_text : FS -> str -> exn + str.
Variable write_text : FS -> str -> str -> FS * option exn.
Variable scan_tree : FS -> str -> exn + list dirent.

Lemma print_prints (text : str) (w : world FS) :
  printable stdout_encodes text = true ->
  print stdout_encodes encode_error text w
  = (Returned tt, {| files := files w; trace := trace w ++ [Print text] |}).
Proof. intros H. unfold print. rewrite H. reflexivity. Qed.

Lemma print_raises (text : str) (w : world FS) :
  printable stdout_encodes text = false ->
  print stdout_encodes encode_error text w = (Raised (encode_error text), w).
Proof. intros H. unfold print. rewrite H. reflexivity. Qed.

(** ** The ways a call can go *)

Lemma fix_read_error (file_path : str) (w : world FS) (e : exn) :
  read_text (files w) file_path = inl e ->
  printable stdout_encodes (error_line file_path e) = true ->
  fix_missing_println stdout_encodes encode_error read_text write_text file_path w =
  (Returned false,
   {| files := files w;
      trace := trace w ++ [Print (error_line file_path e)] |}).
Proof.
  intros H Hp. unfold fix_missing_println, try_except, bind, read_file.
  rewrite H, (print_prints _ _ Hp). reflexivity.
Qed.

Lemma fix_read_error_unreported (file_path : str) (w : world FS) (e : exn) :
  read_text (files w) file_path = inl e ->
  printable stdout_encodes (error_line file_path e) = false ->
  fix_missing_println stdout_encodes encode_error read_text write_text file_path w =
  (Raised (encode_error (error_line file_path e)), w).
Proof.
  intros H Hp. unfold fix_missing_println, try_except, bind, read_file.
  rewrite H, (print_raises _ _ Hp). reflexivity.
Qed.

Lemma fix_unchanged (file_path : str) (w : world FS) (content : str) :
  read_text (files w) file_path = inr content ->
  rewrite_content content = content ->
  fix_missing_println stdout_encodes encode_error read_text write_text file_path w
  = (Returned false, w).
Proof.
  intros H E. unfold fix_missing_println, try_except, bind, read_file.
  rewrite H, E, eqb_str_refl. reflexivity.
Qed.

Lemma fix_write_error (file_path : str) (w : world FS) (content : str)
      (fs' : FS) (e : exn) :
  read_text (files w) file_path = inr content ->
  rewrite_content content <> content ->
  write_text (files w) file_path (rewrite_content content) = (fs', Some e) ->
  printable stdout_encodes (error_line file_path e) = true ->
  fix_missing_println stdout_encodes encode_error read_text write_text file_path w =
  (Returned false,
   {| files := fs';
      trace := trace w ++ [Write file_path (rewrite_content content);
                           Print (error_line file_path e)] |}).
Proof.
  intros H E Hw Hp. unfold fix_missing_println, try_except, bind, read_file.
  rewrite H.
  destruct (eqb_str (rewrite_content content) content) eqn:Eq;
    [apply eqb_str_eq in Eq; contradiction|].
  cbn [negb]. unfold write_file. rewrite Hw.
  rewrite (print_prints _ _ Hp). cbn [files trace ret].
  rewrite <- app_assoc. reflexivity.
Qed.

Lemma fix_write_error_unreported (file_path : str) (w : world FS)
      (content : str) (fs' : FS) (e : exn) :
  read_text (files w) file_path = inr content ->
  rewrite_content content <> content ->
  write_text (files w) file_path (rewrite_content content) = (fs', Some e) ->
  printable stdout_encodes (error_line file_path e) = false ->
  fix_missing_println stdout_encodes encode_error read_text write_text file_path w =
  (Raised (encode_error (error_line file_path e)),
   {| files := fs';
      trace := trace w ++ [Write file_path (rewrite_content content)] |}).
Proof.
  intros H E Hw Hp. unfold fix_missing_println, try_except, bind, read_file.
  rewrite H.
  destruct (eqb_str (rewrite_content content) content) eqn:Eq;
    [apply eqb_str_eq in Eq; contradiction|].
  cbn [negb]. unfold write_file. rewrite Hw.
  rewrite (print_raises _ _ Hp). reflexivity.
Qed.

Lemma fix_written (file_path : str) (w : world FS) (content : str) (fs' : FS) :
  read_text (files w) file_path = inr content ->
  rewrite_content content <> content ->
  write_text (files w) file_path (rewrite_content content) = (fs', None) ->
  printable stdout_encodes file_path = true ->
  fix_missing_println stdout_encodes encode_error read_text write_text file_path w =
  (Returned true,
   {| files := fs';
      trace := trace w ++ [Write file_path (rewrite_content content);
                           Print (lit "Fixed: " ++ file_path)] |}).
Proof.
  intros H E Hw Hp. unfold fix_missing_println, try_except, bind, read_file.
  rewrite H.
  destruct (eqb_str (rewrite_content content) content) eqn:Eq;
    [apply eqb_str_eq in Eq; contradiction|].
  cbn [negb]. unfold write_file. rewrite Hw.
  rewrite print_prints by (rewrite printable_fixed_line; exact Hp).
  cbn [files trace ret]. rewrite <- app_assoc. reflexivity.
Qed.

(** The text of the error the call ends with when the line Fixed: path
    cannot be printed: the error of printing the report of that error. *)
Lemma fix_written_unreported (file_path : str) (w : world FS)
      (content : str) (fs' : FS) :
  read_text (files w) file_path = inr content ->
  rewrite_content content <> content ->
  write_text (files w) file_path (rewrite_content content) = (fs', None) ->
  printable stdout_encodes file_path = false ->
  fix_missing_println stdout_encodes encode_error read_text write_text file_path w =
  (Raised (encode_error
             (error_line file_path
                (encode_error (lit "Fixed: " ++ file_path)))),
   {| files := fs';
      trace := trace w ++ [Write file_path (rewrite_content content)] |}).
Proof.
  intros H E Hw Hp. unfold fix_missing_println, try_except, bind, read_file.
  rewrite H.
  destruct (eqb_str (rewrite_content content) content) eqn:Eq;
    [apply eqb_str_eq in Eq; contradiction|].
  cbn [negb]. unfold write_file. rewrite Hw.
  rewrite print_raises by (rewrite printable_fixed_line; exact Hp).
  rewrite print_raises; [reflexivity|].
  rewrite printable_error_line, Hp. reflexivity.
Qed.

(** Whatever way it goes, a call only adds to the trace, and it writes
    only the new content of its own file, which differs from the old. *)
Lemma fix_cases (file_path : str) (w : world FS) :
  exists (out : outcome bool) (fs' : FS) (added : list event),
    fix_missing_println stdout_encodes encode_error read_text write_text file_path w =
    (out, {| files := fs'; trace := trace w ++ added |}) /\
    forall f data, In (Write f data) added ->
      f = file_path /\
      exists content,
        read_text (files w) file_path = inr content /\
        data = rewrite_content content /\ data <> content.
Proof.
  destruct (read_text (files w) file_path) as [e | content] eqn:Hr.
  - destruct (printable stdout_encodes (error_line file_path e)) eqn:Hp.
    + eexists. exists (files w), [Print (error_line file_path e)].
      split; [apply fix_read_error; assumption|].
      intros f data [Habs | []]. discriminate.
    + eexists. exists (files w), []. split.
      * rewrite (fix_read_error_unreported file_path w e Hr Hp), app_nil_r.
        destruct w; reflexivity.
      * intros f data [].
  - destruct (eqb_str (rewrite_content content) content) eqn:Eq.
    + apply eqb_str_eq in Eq.
      eexists. exists (files w), []. split.
      * rewrite (fix_unchanged file_path w content Hr Eq), app_nil_r.
        destruct w; reflexivity.
      * intros f data [].
    + assert (Hne : rewrite_content content <> content).
      { intros E. apply eqb_str_eq in E. congruence. }
      assert (Hwr : forall f data more,
                 In (Write f data)
                    (Write file_path (rewrite_content content) :: more) ->
                 (forall f' d', ~ In (Write f' d') more) ->
                 f = file_path /\
                 exists content0,
                   @inr exn str content = inr content0 /\
                   data = rewrite_content content0 /\ data <> content0).
      { intros f data more [E | Hin] Hmore; [|destruct (Hmore _ _ Hin)].
        inversion E; subst. split; [reflexivity|]. exists content. auto. }
      destruct (write_text (files w) file_path (rewrite_content content))
        as [fs' [e|]] eqn:Hw.
      * destruct (printable stdout_encodes (error_line file_path e)) eqn:Hp.
        -- eexists. exists fs'. eexists. split;
             [apply (fix_write_error file_path w content fs' e Hr Hne Hw Hp)|].
           intros f data Hin. apply (Hwr f data _ Hin).
           intros f' d' [Habs | []]. discriminate.
        -- eexists. exists fs'. eexists. split;
             [apply (fix_write_error_unreported file_path w content fs' e
                       Hr Hne Hw Hp)|].
           intros f data Hin. apply (Hwr f data _ Hin). intros f' d' [].
      * destruct (printable stdout_encodes file_path) eqn:Hp.
        -- eexists. exists fs'. eexists. split;
             [apply (fix_written file_path w content fs' Hr Hne Hw Hp)|].
           intros f data Hin. apply (Hwr f data _ Hin).
           intros f' d' [Habs | []]. discriminate.
        -- eexists. exists fs'. eexists. split;
             [apply (fix_written_unreported file_path w content fs'
                       Hr Hne Hw Hp)|].
           intros f data Hin. apply (Hwr f data _ Hin). intros f' d' [].
Qed.

(** ** The loop of [main] *)

Lemma fix_all_step (file_path : str) (rest : list str) (n : nat)
      (w w' : world FS) (fixed : bool) :
  fix_missing_println stdout_encodes encode_error read_text write_text file_path w
  = (Returned fixed, w') ->
  fix_all stdout_encodes encode_error read_text write_text (file_path :: rest) n w =
  fix_all stdout_encodes encode_error read_text write_text rest
          (if fixed then n + 1 else n) w'.
Proof.
  intros H. cbn [fix_all]. unfold bind at 1. rewrite H. reflexivity.
Qed.

Lemma fix_all_abort (file_path : str) (rest : list str) (n : nat)
      (w w' : world FS) (e : exn) :
  fix_missing_println stdout_encodes encode_error read_text write_text file_path w
  = (Raised e, w') ->
  fix_all stdout_encodes encode_error read_text write_text (file_path :: rest) n w
  = (Raised e, w').
Proof.
  intros H. cbn [fix_all]. unfold bind at 1. rewrite H. reflexivity.
Qed.

(** [main] is its first print, the loop, and its last print. *)
Lemma main_unfold (w : world FS) :
  let rust_files :=
    find_rust_files (os_walk backend_dir (scan_tree (files w) backend_dir)) in
  let w0 :=
    {| files := files w;
       trace := trace w
                  ++ [Print (lit "Found " ++ str_of_nat (length rust_files)
                               ++ lit " Rust files to process...")] |} in
  main stdout_encodes encode_error read_text write_text scan_tree w =
  match fix_all stdout_encodes encode_error read_text write_text rust_files 0 w0
  with
  | (Returned m, w1) =>
      (Returned tt,
       {| files := files w1;
          trace := trace w1
                     ++ [Print (lit "Fixed " ++ str_of_nat m ++ lit " files")] |})
  | (Raised e, w1) => (Raised e, w1)
  end.
Proof.
  intros rust_files w0. unfold main. fold rust_files.
  unfold bind at 1. rewrite print_prints by apply printable_found_line.
  fold w0. unfold bind.
  destruct (fix_all stdout_encodes encode_error read_text write_text
                    rust_files 0 w0) as [[m | e] w1]; [|reflexivity].
  rewrite print_prints by apply printable_summary_line. reflexivity.
Qed.

End Files.

End ScriptFacts.

Import ScriptFacts.

Import Script Samples.

(* ================================================================== *)
(** * The properties of the specification *)
(* ================================================================== *)

(** ** Classification *)

(** C10: a line that starts with a double quote in column 0 is never a
    candidate-start, because a candidate-start begins with a whitespace
    character; when the loop reaches such a line (it was not consumed as
    a continuation) the line is appended unchanged and [i] moves on by
    one. *)
Theorem quote_in_column_0_passes_through (rest : str) :
  is_candidate_start (QUOTE :: rest) = false /\
  (forall l, is_candidate_start l = true ->
             exists c tl, l = c :: tl /\ isspace c = true) /\
  (forall (lines : list str) st,
      nth (i st) lines [] = QUOTE :: rest ->
      body lines st =
      {| i := i st + 1; fixed_lines := fixed_lines st ++ [QUOTE :: rest] |}).
Proof.
  assert (H0 : is_candidate_start (QUOTE :: rest) = false) by reflexivity.
  split; [exact H0|]. split.
  - intros l Hl. unfold is_candidate_start in Hl.
    rewrite !andb_true_iff in Hl.
    destruct Hl as [[[[[[[[Hre _] _] _] _] _] _] _] _].
    destruct l as [|c tl]; [discriminate|].
    apply andb_true_iff in Hre. exists c, tl. split; [reflexivity | apply Hre].
  - intros lines st Hnth.
    rewrite (body_unrelated lines st) by (rewrite Hnth; exact H0).
    rewrite Hnth. reflexivity.
Qed.

Lemma quote_in_column_0_witness :
  nth 1 [lit "fn f() {"; column0; lit "}"] [] = column0 /\
  body [lit "fn f() {"; column0; lit "}"]
       {| i := 1; fixed_lines := [lit "fn f() {"] |} =
  {| i := 2; fixed_lines := [lit "fn f() {"; column0] |}.
Proof.
  split; [reflexivity|].
  exact (proj2 (proj2 (quote_in_column_0_passes_through (lit "hello" ++ QUOTE :: lit ";")))
           [lit "fn f() {"; column0; lit "}"]
           {| i := 1; fixed_lines := [lit "fn f() {"] |} eq_refl).
Defined.

(** C5, as the specification states it, fails: a line with an exclusion
    substring that follows a candidate-start and ends in a comma is
    consumed as a continuation and loses its comma. *)
Lemma excluded_line_changed_as_continuation :
  contains let_line (lit "let ") = true /\
  nth_error [orphan; let_line] 1 = Some let_line /\
  nth_error (rewrite_lines [orphan; let_line]) 1
  = Some (lit "    let v = f(a);") /\
  lit "    let v = f(a);" <> let_line.
Proof. repeat split; try reflexivity. discriminate. Qed.

(** C5, amended: a line that contains the macro token or an exclusion
    substring is never a candidate-start; when the loop reaches it as
    the current line it is appended verbatim and [i] moves on by one;
    when it is consumed as a continuation of a block, the iteration that
    starts the block appends one line for the candidate-start and one for
    each consumed line, in their order, and the line appended for this
    one is the line itself if it is not the last of the block; if it is
    the last, it is the line itself when its stripped text ends with a
    closing parenthesis and a semicolon, and otherwise the line without
    its trailing whitespace and commas, followed by a closing parenthesis
    and a semicolon.  It is never given the macro opening. *)
Theorem excluded_line_never_wrapped (line sub : str) :
  In sub EXCLUDED ->
  contains line sub = true ->
  is_candidate_start line = false /\
  (forall (lines : list str) st,
      nth (i st) lines [] = line ->
      body lines st =
      {| i := i st + 1; fixed_lines := fixed_lines st ++ [line] |}) /\
  (forall (lines : list str) (st : state) (m : nat),
      is_candidate_start (nth (i st) lines []) = true ->
      m < length (continuation_lines_at lines (i st)) ->
      nth (i st + 1 + m) lines [] = line ->
      let consumed := length (continuation_lines_at lines (i st)) in
      let out := fixed_lines (body lines st) in
      length out = length (fixed_lines st) + 1 + consumed /\
      nth (length (fixed_lines st) + 1 + m) out [] =
      if m + 1 <? consumed then line
      else if endswith (strip line) (lit ");") then line
           else rstrip_chars (rstrip line) (lit ",") ++ lit ");").
Proof.
  intros Hin Hc.
  pose proof (excluded_not_candidate line sub Hin Hc) as Hnc.
  split; [exact Hnc|]. split.
  - intros lines st Hnth.
    rewrite (body_unrelated lines st) by (rewrite Hnth; exact Hnc).
    rewrite Hnth. reflexivity.
  - intros lines st m Hcand Hm Hline consumed out.
    destruct (body_continuation lines st m Hcand Hm) as [Hlen Hout].
    split; [exact Hlen|].
    unfold out, consumed. rewrite Hout, Hline. reflexivity.
Qed.

Lemma excluded_line_witness :
  (In (lit "let ") EXCLUDED /\
   contains (lit "    let x = " ++ quoted "literal" ++ lit ";") (lit "let ") = true /\
   is_candidate_start (lit "    let x = " ++ quoted "literal" ++ lit ";") = false) /\
  (contains let_line (lit "let ") = true /\
   is_candidate_start (nth 0 [orphan; let_line] []) = true /\
   continuation_lines_at [orphan; let_line] 0 = [let_line] /\
   nth 1 (fixed_lines (body [orphan; let_line] init)) []
   = lit "    let v = f(a);").
Proof.
  assert (Hin : In (lit "let ") EXCLUDED) by (simpl; tauto).
  assert (Hc : contains (lit "    let x = " ++ quoted "literal" ++ lit ";")
                        (lit "let ") = true) by reflexivity.
  assert (Hc' : contains let_line (lit "let ") = true) by reflexivity.
  assert (Hs : is_candidate_start (nth (i init) [orphan; let_line] []) = true)
    by reflexivity.
  assert (Hm : 0 < length (continuation_lines_at [orphan; let_line] (i init)))
    by (vm_compute; lia).
  split.
  - split; [exact Hin|]. split; [exact Hc|].
    exact (proj1 (excluded_line_never_wrapped _ _ Hin Hc)).
  - split; [exact Hc'|]. split; [exact Hs|]. split; [reflexivity|].
    exact (proj2 (proj2 (proj2 (excluded_line_never_wrapped _ _ Hin Hc'))
                    [orphan; let_line] init 0 Hs Hm eq_refl)).
Defined.

(** C6: a line is a continuation exactly when its stripped text ends with
    a comma, or ends with a closing parenthesis and semicolon and does
    not start with a closing parenthesis; the look-ahead consumes the
    longest run of such lines, bounded only by the end of the lines: a
    run that reaches the end of the file is consumed whole, and the block
    then ends at [len(lines)]. *)
Theorem look_ahead_consumes_longest_run :
  (forall l,
      is_continuation l = true <->
      (exists p, strip l = p ++ lit ",") \/
      ((exists p, strip l = p ++ lit ");") /\
       ~ (exists t, strip l = lit ")" ++ t))) /\
  (forall (rest : list str) j acc,
      exists run tail,
        rest = run ++ tail /\
        Forall (fun l => is_continuation l = true) run /\
        (forall l t, tail = l :: t -> is_continuation l = false) /\
        look_ahead rest j acc = (j + length run, acc ++ run)) /\
  (forall (rest : list str) j acc,
      Forall (fun l => is_continuation l = true) rest ->
      look_ahead rest j acc = (j + length rest, acc ++ rest)) /\
  (forall (lines : list str) st,
      i st < length lines ->
      is_candidate_start (nth (i st) lines []) = true ->
      Forall (fun l => is_continuation l = true) (skipn (i st + 1) lines) ->
      continuation_lines_at lines (i st) = skipn (i st + 1) lines /\
      i (body lines st) = length lines).
Proof.
  assert (Hall : forall rest j acc,
             Forall (fun l => is_continuation l = true) rest ->
             look_ahead rest j acc = (j + length rest, acc ++ rest)).
  { induction rest as [|l rest IH]; intros j acc H; simpl.
    - rewrite Nat.add_0_r, app_nil_r. reflexivity.
    - inversion H as [|? ? Hl Hrest]; subst. rewrite Hl, (IH _ _ Hrest).
      rewrite <- app_assoc. simpl. f_equal. lia. }
  split; [|split; [exact look_ahead_run | split; [exact Hall|]]].
  - intros l. unfold is_continuation.
    rewrite orb_true_iff, andb_true_iff, negb_true_iff.
    rewrite <- !endswith_iff, <- startswith_iff.
    rewrite not_true_iff_false. reflexivity.
  - intros lines st Hlt Hc Hrun.
    assert (Hat : continuation_lines_at lines (i st) = skipn (i st + 1) lines).
    { unfold continuation_lines_at. rewrite (Hall _ _ _ Hrun). reflexivity. }
    split; [exact Hat|].
    destruct (body_block lines st Hc) as [run [tail [_ [_ [_ [Hat' ->]]]]]].
    simpl. rewrite <- Hat', Hat, length_skipn. lia.
Qed.

Lemma look_ahead_witness :
  Forall (fun l => is_continuation l = true) [arg_x; arg_y; arg_z_closing] /\
  look_ahead [arg_x; arg_y; arg_z_closing] 1 [] =
  (4, [arg_x; arg_y; arg_z_closing]).
Proof.
  assert (H : Forall (fun l => is_continuation l = true)
                     [arg_x; arg_y; arg_z_closing])
    by (repeat constructor).
  split; [exact H|].
  exact (proj1 (proj2 (proj2 look_ahead_consumes_longest_run))
           [arg_x; arg_y; arg_z_closing] 1 [] H).
Defined.

(** ** Termination *)

(** C9: the scan terminates on every list of lines.  An iteration entered
    with [i < len(lines)] leaves [i] strictly larger and at most
    [len(lines)]: larger by one when nothing is consumed (an unrelated
    line, a single-line candidate), and by one more for each consumed
    continuation line otherwise.  So [len(lines)] iterations reach
    [i = len(lines)], where the loop exits, and more iterations would
    change nothing. *)
Theorem scan_terminates (lines : list str) :
  (forall st,
      i st < length lines ->
      i st < i (body lines st) <= length lines /\
      i (body lines st) = i st + 1 + length (consumed_by lines st) /\
      (is_candidate_start (nth (i st) lines []) = false ->
       consumed_by lines st = [])) /\
  i (while_loop (length lines) lines init) = length lines /\
  (forall fuel,
      length lines <= fuel ->
      while_loop fuel lines init = while_loop (length lines) lines init).
Proof.
  split; [|split].
  - intros st Hlt. split; [apply body_advances, Hlt|]. split.
    + destruct (is_candidate_start (nth (i st) lines [])) eqn:Hc.
      * rewrite (consumed_by_block lines st Hlt Hc).
        destruct (body_block lines st Hc) as [run [tail [_ [_ [_ [-> ->]]]]]].
        reflexivity.
      * rewrite (body_unrelated lines st Hc). unfold consumed_by.
        rewrite Hc, andb_false_r. simpl. lia.
    + intros Hc. unfold consumed_by. rewrite Hc, andb_false_r. reflexivity.
  - apply while_loop_exits; simpl; lia.
  - intros fuel Hfuel.
    replace fuel with (length lines + (fuel - length lines)) by lia.
    rewrite while_loop_add. apply while_loop_done.
    rewrite while_loop_exits; simpl; lia.
Qed.

Lemma scan_terminates_witness :
  1 < length [lit "fn f() {"; fmt_line; arg_x; arg_y; arg_z_closing; lit "}"] /\
  i (body [lit "fn f() {"; fmt_line; arg_x; arg_y; arg_z_closing; lit "}"]
          {| i := 1; fixed_lines := [lit "fn f() {"] |}) = 5.
Proof.
  split; [simpl; lia|].
  pose proof (proj1 (scan_terminates
                       [lit "fn f() {"; fmt_line; arg_x; arg_y; arg_z_closing; lit "}"])
                {| i := 1; fixed_lines := [lit "fn f() {"] |}) as H.
  simpl in H. exact (proj1 (proj2 (H ltac:(lia)))).
Defined.

(** ** Reconstruction *)

(** C4: the single line made of four spaces, the literal hello in quotes
    and a semicolon is rewritten to the macro call on that literal, and a
    file that holds it is written back so; it is then reported as fixed
    if the path can be printed, and else the call raises after the
    write.  In general, when no continuation follows a candidate-start,
    one semicolon is taken off the end of the stripped line, if there is
    one, and the line appended is the leading whitespace, the macro
    token, an opening parenthesis, that content, and a closing
    parenthesis and semicolon. *)
Theorem single_line_rewrite :
  rewrite_content hello = hello_fixed /\
  (forall (FS : Type) (stdout_encodes : char -> bool) (encode_error : str -> exn)
          (read_text : FS -> str -> exn + str)
          (write_text : FS -> str -> str -> FS * option exn)
          (file_path : str) (w : world FS) (fs' : FS),
      read_text (files w) file_path = inr hello ->
      write_text (files w) file_path hello_fixed = (fs', None) ->
      fix_missing_println stdout_encodes encode_error read_text write_text
                          file_path w
      = if printable stdout_encodes file_path
        then (Returned true,
              {| files := fs';
                 trace := trace w ++ [Write file_path hello_fixed;
                                      Print (lit "Fixed: " ++ file_path)] |})
        else (Raised (encode_error
                        (error_line file_path
                           (encode_error (lit "Fixed: " ++ file_path)))),
              {| files := fs';
                 trace := trace w ++ [Write file_path hello_fixed] |})) /\
  (forall (lines : list str) st,
      is_candidate_start (nth (i st) lines []) = true ->
      continuation_lines_at lines (i st) = [] ->
      let line := nth (i st) lines [] in
      let quote_content :=
        if endswith (strip line) (lit ";") then removelast (strip line)
        else strip line in
      body lines st =
      {| i := i st + 1;
         fixed_lines :=
           fixed_lines st ++
           [re_leading_ws line ++ MACRO ++ lit "(" ++ quote_content ++ lit ");"] |}).
Proof.
  split; [reflexivity|]. split.
  { intros FS stdout_encodes encode_error read_text write_text
           file_path w fs' Hr Hw.
    assert (E : rewrite_content hello = hello_fixed) by reflexivity.
    assert (Hne : rewrite_content hello <> hello)
      by (rewrite E; discriminate).
    rewrite <- E in Hw |- *.
    destruct (printable stdout_encodes file_path) eqn:Hp.
    - apply fix_written; assumption.
    - apply fix_written_unreported; assumption. }
  intros lines st Hc Hat line quote_content.
  destruct (body_block lines st Hc) as [run [tail [_ [_ [_ [Hat' ->]]]]]].
  rewrite Hat in Hat'. subst run. simpl.
  rewrite Nat.add_0_r. reflexivity.
Qed.

Lemma single_line_rewrite_witness :
  is_candidate_start (nth 0 [hello] []) = true /\
  continuation_lines_at [hello] 0 = [] /\
  body [hello] init = {| i := 1; fixed_lines := [hello_fixed] |}.
Proof.
  assert (Hc : is_candidate_start (nth (i init) [hello] []) = true)
    by reflexivity.
  assert (Hat : continuation_lines_at [hello] (i init) = []) by reflexivity.
  split; [exact Hc|]. split; [exact Hat|].
  exact (proj2 (proj2 single_line_rewrite) [hello] init Hc Hat).
Defined.

(** C2: take a candidate-start followed by exactly two continuation
    lines, whose stripped text ends with a comma, and by a third line
    whose stripped text ends with a closing parenthesis and semicolon
    (the continuation lines are exactly two when that third line starts
    with a closing parenthesis, and only then).  The iteration consumes
    three lines and appends three: the first with the macro token and an
    opening parenthesis before its stripped text, the second as it is,
    and the final consumed line with its trailing commas replaced by a
    closing parenthesis and semicolon. *)
Theorem two_continuation_lines_make_one_call
        (pre : list str) (c l1 l2 l3 : str) (rest acc : list str) :
  is_candidate_start c = true ->
  endswith (strip l1) (lit ",") = true ->
  endswith (strip l2) (lit ",") = true ->
  endswith (strip l3) (lit ");") = true ->
  let lines := pre ++ c :: l1 :: l2 :: l3 :: rest in
  let st := {| i := length pre; fixed_lines := acc |} in
  (continuation_lines_at lines (length pre) = [l1; l2] <->
   startswith (strip l3) (lit ")") = true) /\
  (continuation_lines_at lines (length pre) = [l1; l2] ->
   body lines st =
   {| i := length pre + 3;
      fixed_lines :=
        acc ++ [re_leading_ws c ++ lit "ic_cdk::println!(" ++ strip c;
                l1;
                rstrip_chars (rstrip l2) (lit ",") ++ lit ");"] |}).
Proof.
  intros Hc H1 H2 H3 lines st.
  pose proof (is_continuation_comma l1 H1) as C1.
  pose proof (is_continuation_comma l2 H2) as C2.
  pose proof (is_continuation_close l3 H3) as C3.
  assert (Hat : continuation_lines_at lines (length pre)
                = if startswith (strip l3) (lit ")") then [l1; l2]
                  else snd (look_ahead rest (length pre + 1 + 1 + 1 + 1)
                                       [l1; l2; l3])).
  { unfold continuation_lines_at, lines. rewrite skipn_at.
    cbn [look_ahead]. rewrite C1, C2, C3.
    destruct (startswith (strip l3) (lit ")")); reflexivity. }
  assert (Hc' : is_candidate_start (nth (i st) lines []) = true).
  { unfold lines, st. cbn [i]. rewrite nth_at. exact Hc. }
  split.
  - rewrite Hat. destruct (startswith (strip l3) (lit ")")).
    + split; reflexivity.
    + split; [|discriminate]. intros E. exfalso.
      destruct (look_ahead_run rest (length pre + 1 + 1 + 1 + 1) [l1; l2; l3])
        as [run [tail [_ [_ [_ Hl]]]]].
      rewrite Hl in E. cbn [snd app] in E. discriminate E.
  - intros Htwo.
    destruct (body_block lines st Hc') as [run [tail [_ [_ [_ [Hrun ->]]]]]].
    unfold st in Hrun. cbn [i] in Hrun. rewrite Htwo in Hrun. subst run.
    unfold lines, st. cbn [i fixed_lines]. rewrite nth_at.
    cbn [reconstruct removelast last app length].
    rewrite (close_last_comma l2 H2). f_equal. lia.
Qed.

Lemma two_continuation_lines_witness :
  continuation_lines_at [fmt_line; arg_x; arg_y; lone_closing] 0
  = [arg_x; arg_y] /\
  body [fmt_line; arg_x; arg_y; lone_closing] init =
  {| i := 3;
     fixed_lines :=
       [ lit "    ic_cdk::println!(" ++ quoted "at {} {} {}" ++ lit ",";
         arg_x;
         lit "        y);" ] |}.
Proof.
  assert (Htwo : continuation_lines_at
                   ([] ++ fmt_line :: arg_x :: arg_y :: lone_closing :: [])
                   (length (@nil str)) = [arg_x; arg_y]) by reflexivity.
  split; [exact Htwo|].
  exact (proj2 (two_continuation_lines_make_one_call
                  [] fmt_line arg_x arg_y lone_closing [] []
                  eq_refl eq_refl eq_refl eq_refl) Htwo).
Defined.

(** When the third line does not start with a closing parenthesis it is
    a continuation line too: the block has three continuation lines, and
    the third is appended as it is. *)
Example closing_argument_line_is_consumed :
  continuation_lines_at [fmt_line; arg_x; arg_y; arg_z_closing] 0
  = [arg_x; arg_y; arg_z_closing] /\
  body [fmt_line; arg_x; arg_y; arg_z_closing] init =
  {| i := 4;
     fixed_lines := [println_open fmt_line; arg_x; arg_y; arg_z_closing] |}.
Proof. split; reflexivity. Qed.

(** ** Running the rewriter again *)

(** C1, as the specification states it, fails: a literal argument on a
    continuation line of a block is left as it is by the first run, and
    is a candidate-start for the second run, which wraps it and reports
    the file as fixed again. *)
Lemma second_run_rewrites_nested_literal :
  rewrite_content (rewrite_content nested_literal)
  <> rewrite_content nested_literal /\
  fst (fix_missing_println utf8_stdout demo_encode_error demo_read demo_write (lit "lib.rs")
         (demo_world [(lit "lib.rs", inr (rewrite_content nested_literal))]))
  = Returned true.
Proof.
  split; [|vm_compute; reflexivity].
  intros H. vm_compute in H. discriminate H.
Qed.

(** C1, amended: rewriting the output of a first run again yields the
    same text exactly for the input texts in which no line consumed as a
    continuation has itself the shape of a candidate-start; for these
    texts a second run on a file that holds the output of the first
    returns False, writes nothing and prints nothing. *)
Theorem rewrite_twice_without_nested_candidates (content : str) :
  (Forall (fun l => is_candidate_start l = false)
          (consumed_continuations (split content NEWLINE)) <->
   rewrite_content (rewrite_content content) = rewrite_content content) /\
  (Forall (fun l => is_candidate_start l = false)
          (consumed_continuations (split content NEWLINE)) ->
   forall (FS : Type) (stdout_encodes : char -> bool) (encode_error : str -> exn)
        (read_text : FS -> str -> exn + str)
          (write_text : FS -> str -> str -> FS * option exn)
          (file_path : str) (w : world FS),
     read_text (files w) file_path = inr (rewrite_content content) ->
     fix_missing_println stdout_encodes encode_error read_text write_text file_path w
     = (Returned false, w)).
Proof.
  assert (Hif : Forall (fun l => is_candidate_start l = false)
                       (consumed_continuations (split content NEWLINE)) ->
                rewrite_content (rewrite_content content)
                = rewrite_content content).
  { intros H. apply rewrite_content_fixpoint. rewrite split_rewrite_content.
    apply rewrite_lines_not_candidate, H. }
  split; [split; [exact Hif|] |].
  - intros E. apply (f_equal (fun t => split t NEWLINE)) in E.
    rewrite !split_rewrite_content in E.
    apply Forall_forall. intros l Hl.
    destruct (is_candidate_start l) eqn:Hc; [exfalso | reflexivity].
    apply (rewrite_lines_changes (rewrite_lines (split content NEWLINE)));
      [|exact E].
    apply while_loop_candidate. right.
    apply Exists_exists. exists l. split; [exact Hl | exact Hc].
  - intros H FS stdout_encodes encode_error read_text write_text file_path w Hr.
    exact (fix_unchanged FS stdout_encodes encode_error read_text write_text
             file_path w _ Hr (Hif H)).
Qed.

Lemma rewrite_twice_witness :
  Forall (fun l => is_candidate_start l = false)
         (consumed_continuations (split two_line_call NEWLINE)) /\
  rewrite_content (rewrite_content two_line_call)
  = rewrite_content two_line_call.
Proof.
  assert (H : Forall (fun l => is_candidate_start l = false)
                     (consumed_continuations (split two_line_call NEWLINE))).
  { replace (consumed_continuations (split two_line_call NEWLINE))
      with [lit "        total);"] by (vm_compute; reflexivity).
    constructor; [reflexivity | constructor]. }
  split; [exact H|].
  exact (proj1 (proj1 (rewrite_twice_without_nested_candidates two_line_call)) H).
Defined.

(** ** Files *)

(** C7: when no line of a file is a candidate-start, which is the case
    when no line has a quote as its first visible character, or more
    generally when no line is leading whitespace followed by a quote, the
    reconstructed text is the original text, and the call returns False,
    writes nothing and prints nothing.  Whatever the file, and whether
    the call returns or raises, it writes only the reconstructed text,
    only to that file, and only if the text differs from the original. *)
Theorem file_without_candidate_is_left_alone
        (FS : Type) (stdout_encodes : char -> bool) (encode_error : str -> exn)
        (read_text : FS -> str -> exn + str)
        (write_text : FS -> str -> str -> FS * option exn)
        (file_path : str) (w : world FS) :
  (forall content,
      read_text (files w) file_path = inr content ->
      Forall (fun l => is_candidate_start l = false) (split content NEWLINE) ->
      rewrite_content content = content /\
      fix_missing_println stdout_encodes encode_error read_text write_text file_path w
      = (Returned false, w)) /\
  (forall content,
      (forall l, In l (split content NEWLINE) ->
                 startswith (lstrip l) [QUOTE] = false \/
                 re_match_ws_quote l = false) ->
      Forall (fun l => is_candidate_start l = false) (split content NEWLINE)) /\
  (exists (out : outcome bool) (fs' : FS) (added : list event),
      fix_missing_println stdout_encodes encode_error read_text write_text file_path w
      = (out, {| files := fs'; trace := trace w ++ added |}) /\
      forall f data,
        In (Write f data) added ->
        f = file_path /\
        exists content,
          read_text (files w) file_path = inr content /\
          data = rewrite_content content /\ data <> content).
Proof.
  split; [|split].
  - intros content Hr Hnc.
    pose proof (rewrite_content_fixpoint content Hnc) as E.
    split; [exact E|].
    exact (fix_unchanged FS stdout_encodes encode_error read_text write_text
             file_path w content Hr E).
  - intros content H. apply Forall_forall. intros l Hl.
    destruct (H l Hl) as [Hq | Hre].
    + apply unquoted_not_candidate, Hq.
    + unfold is_candidate_start. rewrite Hre. reflexivity.
  - apply fix_cases.
Qed.

Lemma file_without_candidate_witness :
  demo_read [(lit "main.rs", inr plain_text)] (lit "main.rs") = inr plain_text /\
  Forall (fun l => is_candidate_start l = false) (split plain_text NEWLINE) /\
  fix_missing_println utf8_stdout demo_encode_error demo_read demo_write (lit "main.rs")
    (demo_world [(lit "main.rs", inr plain_text)])
  = (Returned false, demo_world [(lit "main.rs", inr plain_text)]).
Proof.
  assert (Hr : demo_read (files (demo_world [(lit "main.rs", inr plain_text)]))
                         (lit "main.rs") = inr plain_text) by reflexivity.
  assert (Hnc : Forall (fun l => is_candidate_start l = false)
                       (split plain_text NEWLINE)).
  { replace (split plain_text NEWLINE)
      with [lit "fn main() {"; lit "    run();"; lit "}"]
      by (vm_compute; reflexivity).
    repeat (constructor; [reflexivity|]). constructor. }
  split; [exact Hr|]. split; [exact Hnc|].
  exact (proj2 (proj1 (file_without_candidate_is_left_alone
                         demo_fs utf8_stdout demo_encode_error demo_read demo_write (lit "main.rs")
                         (demo_world [(lit "main.rs", inr plain_text)]))
                  plain_text Hr Hnc)).
Defined.




(** The whole script on that file system: the first file cannot be read,
    the second is fixed all the same. *)
Example main_goes_on_after_an_error :
  main utf8_stdout demo_encode_error demo_read demo_write demo_scan
       (demo_world locked_then_hello)
  = (Returned tt,
     {| files := (in_backend "b.rs", inr hello_fixed) :: locked_then_hello;
        trace :=
          [ Print (lit "Found 2 Rust files to process...");
            Print (lit "Error processing " ++ in_backend "a.rs"
                     ++ lit ": [Errno 13] Permission denied");
            Write (in_backend "b.rs") hello_fixed;
            Print (lit "Fixed: " ++ in_backend "b.rs");
            Print (lit "Fixed 1 files") ] |}).
Proof. vm_compute. reflexivity. Qed.

(** ** Discovery *)

(** C3, as the specification states it, fails: with no root directory the
    walk raises nothing; [main] returns normally after printing that it
    found and fixed zero files. *)
Lemma missing_root_is_silent :
  demo_scan no_root backend_dir = inl ENOENT /\
  main utf8_stdout demo_encode_error demo_read demo_write demo_scan (demo_world no_root)
  = (Returned tt,
     {| files := no_root;
        trace := [Print (lit "Found 0 Rust files to process...");
                  Print (lit "Fixed 0 files")] |}).
Proof. split; reflexivity. Qed.

(** C3, amended: if listing the root directory raises (it does not exist
    or is not readable), the walk yields nothing, because [os.walk] is
    called without [onerror]: [main] raises no error, prints that it
    found zero files and fixed zero files, and no file is read or
    written. *)
Theorem unlistable_root_finds_nothing
        (FS : Type) (stdout_encodes : char -> bool) (encode_error : str -> exn)
        (read_text : FS -> str -> exn + str)
        (write_text : FS -> str -> str -> FS * option exn)
        (scan_tree : FS -> str -> exn + list dirent)
        (w : world FS) (e : exn) :
  scan_tree (files w) backend_dir = inl e ->
  os_walk backend_dir (scan_tree (files w) backend_dir) = [] /\
  main stdout_encodes encode_error read_text write_text scan_tree w
  = (Returned tt,
     {| files := files w;
        trace := trace w ++
          [Print (lit "Found 0 Rust files to process...");
           Print (lit "Fixed 0 files")] |}).
Proof.
  intros H. split; [rewrite H; reflexivity|].
  rewrite main_unfold, H.
  cbn [os_walk find_rust_files flat_map length fix_all].
  unfold ret. cbn [files trace].
  rewrite <- app_assoc. reflexivity.
Qed.

Lemma unlistable_root_witness :
  demo_scan (files (demo_world no_root)) backend_dir = inl ENOENT /\
  os_walk backend_dir (demo_scan (files (demo_world no_root)) backend_dir) = [].
Proof.
  assert (H : demo_scan (files (demo_world no_root)) backend_dir = inl ENOENT)
    by reflexivity.
  split; [exact H|].
  exact (proj1 (unlistable_root_finds_nothing
                  demo_fs utf8_stdout demo_encode_error demo_read demo_write demo_scan
                  (demo_world no_root) ENOENT H)).
Defined.

(* ================================================================== *)
(** * Facts about the lines of the output *)
(* ================================================================== *)

Module LineFacts.

Import Observations.

(** ** Line by line *)

Lemma reconstruct_fate (lines : list str) (st : state) (run tail : list str)
      (m : nat) :
  skipn (i st + 1) lines = run ++ tail ->
  Forall (fun l => is_continuation l = true) run ->
  is_candidate_start (nth (i st) lines []) = true ->
  m < 1 + length run ->
  line_fate (nth (i st + m) lines [])
            (nth m (reconstruct (nth (i st) lines []) run) []).
Proof.
  intros Hs Hrun Hc Hm. destruct m as [|m].
  - rewrite Nat.add_0_r. right. left. split; [exact Hc|].
    destruct run; [right | left]; reflexivity.
  - assert (Hm' : m < length run) by lia.
    assert (Hin : nth (i st + S m) lines [] = nth m run []).
    { replace (i st + S m) with ((i st + 1) + m) by lia.
      rewrite <- (firstn_skipn (i st + 1) lines) at 1.
      assert (Hlen : i st + 1 <= length lines).
      { apply (f_equal (@length str)) in Hs.
        rewrite length_skipn, length_app in Hs. lia. }
      rewrite app_nth2; rewrite length_firstn; [|lia].
      replace (i st + 1 + m - Nat.min (i st + 1) (length lines)) with m by lia.
      rewrite Hs. apply app_nth1, Hm'. }
    rewrite Hin.
    pose proof (nth_error_nth' run [] Hm') as Hne.
    destruct (reconstruct_continuation (nth (i st) lines []) run m _ Hne)
      as [H | H]; apply (nth_error_nth _ _ []) in H.
    + left. exact H.
    + right. right. split; [|exact H].
      apply (Forall_nth_default _ (fun l => is_continuation l = true));
        assumption.
Qed.

Lemma body_fate (lines : list str) (st : state) :
  i st < length lines ->
  length (fixed_lines st) = i st ->
  (forall k, k < i st ->
             line_fate (nth k lines []) (nth k (fixed_lines st) [])) ->
  length (fixed_lines (body lines st)) = i (body lines st) /\
  (forall k, k < i (body lines st) ->
             line_fate (nth k lines []) (nth k (fixed_lines (body lines st)) [])).
Proof.
  intros Hlt Hlen Hinv.
  destruct (is_candidate_start (nth (i st) lines [])) eqn:Hc.
  - destruct (body_block lines st Hc) as [run [tail [Hs [Hrun [_ [_ ->]]]]]].
    cbn [i fixed_lines]. split.
    + rewrite length_app, length_reconstruct. lia.
    + intros k Hk. destruct (Nat.lt_ge_cases k (i st)) as [Hlo | Hhi].
      * rewrite app_nth1 by lia. apply Hinv, Hlo.
      * rewrite app_nth2 by lia. rewrite Hlen.
        replace k with (i st + (k - i st)) at 1 by lia.
        apply (reconstruct_fate lines st run tail); auto. lia.
  - rewrite (body_unrelated lines st Hc). cbn [i fixed_lines]. split.
    + rewrite length_app. simpl. lia.
    + intros k Hk. destruct (Nat.lt_ge_cases k (i st)) as [Hlo | Hhi].
      * rewrite app_nth1 by lia. apply Hinv, Hlo.
      * rewrite app_nth2 by lia. rewrite Hlen.
        replace k with (i st) by lia. rewrite Nat.sub_diag.
        left. reflexivity.
Qed.

Lemma rewrite_lines_fate (lines : list str) (k : nat) :
  k < length lines ->
  line_fate (nth k lines []) (nth k (rewrite_lines lines) []).
Proof.
  intros Hk. unfold rewrite_lines.
  assert (Hinv : let st := while_loop (length lines) lines init in
                 length (fixed_lines st) = i st /\
                 (forall k, k < i st ->
                            line_fate (nth k lines []) (nth k (fixed_lines st) []))).
  { apply (while_loop_invariant
             (fun st => length (fixed_lines st) = i st /\
                        (forall k, k < i st ->
                           line_fate (nth k lines []) (nth k (fixed_lines st) [])))).
    - intros st Hlt [Hlen Hf]. apply body_fate; assumption.
    - split; [reflexivity | intros k' Hk'; simpl in Hk'; lia]. }
  destruct Hinv as [_ Hf]. apply Hf.
  unfold init. rewrite while_loop_exits; simpl; lia.
Qed.

(** ** Indentation *)

Lemma takewhile_stop (p r r' : str) (x y : char) :
  isspace x = false -> isspace y = false ->
  takewhile isspace (p ++ x :: r) = takewhile isspace (p ++ y :: r').
Proof.
  intros Hx Hy. induction p as [|a p IH]; cbn [app takewhile].
  - rewrite Hx, Hy. reflexivity.
  - destruct (isspace a); [rewrite IH|]; reflexivity.
Qed.

Lemma takewhile_prefix (t r : str) (x : char) :
  Forall (fun c => isspace c = true) t -> isspace x = false ->
  takewhile isspace (t ++ x :: r) = t.
Proof.
  intros Ht Hx. induction Ht as [|a t Ha _ IH]; cbn [app takewhile].
  - rewrite Hx. reflexivity.
  - rewrite Ha, IH. reflexivity.
Qed.

Lemma println_open_indent (line : str) :
  re_leading_ws (println_open line) = re_leading_ws line.
Proof.
  unfold println_open, re_leading_ws.
  change (lit "ic_cdk::println!(" ++ strip line)
    with (105%N :: lit "c_cdk::println!(" ++ strip line).
  apply takewhile_prefix; [apply takewhile_all | reflexivity].
Qed.

Lemma println_single_indent (line : str) :
  re_leading_ws (println_single line) = re_leading_ws line.
Proof.
  unfold println_single, re_leading_ws.
  match goal with
  | |- takewhile _ (_ ++ lit "ic_cdk::println!(" ++ ?t) = _ =>
      change (lit "ic_cdk::println!(" ++ t)
        with (105%N :: lit "c_cdk::println!(" ++ t)
  end.
  apply takewhile_prefix; [apply takewhile_all | reflexivity].
Qed.

Lemma close_last_indent (l : str) :
  is_continuation l = true ->
  re_leading_ws (close_last l) = re_leading_ws l.
Proof.
  unfold close_last, is_continuation.
  destruct (endswith (strip l) (lit ");")) eqn:E; [reflexivity|].
  simpl. rewrite orb_false_r. intros Hcomma.
  destruct (rstrip_comma_split l Hcomma) as [p [cs [w [Hl [Hne [Hcs [_ ->]]]]]]].
  destruct cs as [|c0 cs]; [exfalso; auto|].
  inversion Hcs as [|? ? Hc0 _]; subst c0.
  rewrite Hl. unfold re_leading_ws.
  change (p ++ lit ");") with (p ++ 41%N :: lit ";").
  change (p ++ (COMMA :: cs) ++ w) with (p ++ COMMA :: cs ++ w).
  apply takewhile_stop; reflexivity.
Qed.

Lemma line_fate_indent (line out : str) :
  line_fate line out -> re_leading_ws out = re_leading_ws line.
Proof.
  intros [-> | [[_ [-> | ->]] | [Hc ->]]].
  - reflexivity.
  - apply println_open_indent.
  - apply println_single_indent.
  - apply close_last_indent, Hc.
Qed.

(** ** Blank lines *)

Lemma dropwhile_head (p : char -> bool) (s r : str) (c : char) :
  dropwhile p s = c :: r -> p c = false.
Proof.
  induction s as [|a s IH]; simpl; [discriminate|].
  destruct (p a) eqn:E; [exact IH|].
  intros H. inversion H; subst. exact E.
Qed.

Lemma dropwhile_nil (p : char -> bool) (s : str) :
  dropwhile p s = [] -> Forall (fun c => p c = true) s.
Proof.
  induction s as [|a s IH]; simpl; [constructor|].
  destruct (p a) eqn:E; [|discriminate].
  intros H. constructor; [exact E | exact (IH H)].
Qed.

Lemma strip_nil_lstrip (l : str) : strip l = [] -> lstrip l = [].
Proof.
  unfold strip, rstrip. intros H.
  apply (f_equal (@rev char)) in H. rewrite rev_involutive in H.
  simpl in H. apply dropwhile_nil in H.
  destruct (lstrip l) as [|c r] eqn:E; [reflexivity|]. exfalso.
  unfold lstrip in E. pose proof (dropwhile_head _ _ _ _ E) as Hc.
  rewrite Forall_forall in H.
  rewrite (H c) in Hc; [discriminate|].
  apply in_rev. rewrite rev_involutive. left. reflexivity.
Qed.

Lemma blank_line_fate (line out : str) :
  strip line = [] -> line_fate line out -> out = line.
Proof.
  intros Hb [-> | [[Hc _] | [Hc _]]]; [reflexivity | exfalso | exfalso].
  - rewrite unquoted_not_candidate in Hc; [discriminate|].
    rewrite (strip_nil_lstrip line Hb). reflexivity.
  - unfold is_continuation in Hc. rewrite Hb in Hc. discriminate Hc.
Qed.

(** ** The macro token and the other exclusion substrings stay *)

Lemma line_fate_keeps_excluded (line out sub : str) :
  In sub EXCLUDED ->
  line_fate line out ->
  contains line sub = true -> contains out sub = true.
Proof.
  intros Hin [-> | [[Hc _] | [Hc ->]]] Hsub.
  - exact Hsub.
  - rewrite (excluded_not_candidate line sub Hin Hsub) in Hc. discriminate.
  - unfold close_last, is_continuation in *.
    destruct (endswith (strip line) (lit ");")) eqn:E; [exact Hsub|].
    simpl in Hc. rewrite orb_false_r in Hc.
    destruct (rstrip_comma_split line Hc) as [p [cs [w [Hl [Hne [Hcs [Hw ->]]]]]]].
    destruct cs as [|c0 cs]; [exfalso; auto|].
    inversion Hcs as [|? ? Hc0 Hcs']; subst c0.
    rewrite Hl in Hsub.
    apply (@contains_trim p (cs ++ w) (lit ");") sub); [| |exact Hsub].
    + pose proof plain_excluded as Hp. rewrite forallb_forall in Hp.
      apply Hp, Hin.
    + apply Forall_app. split.
      * eapply Forall_impl; [|exact Hcs']. simpl. auto.
      * eapply Forall_impl; [|exact Hw]. simpl. auto.
Qed.

End LineFacts.

Import LineFacts.

(* ================================================================== *)
(** * Facts about rewriting a text piece by piece *)
(* ================================================================== *)

Module LocalityFacts.

(** ** Enough fuel *)

Lemma while_loop_enough (fuel : nat) (lines : list str) (st : state) :
  i st <= length lines ->
  length lines - i st <= fuel ->
  while_loop fuel lines st = while_loop (length lines - i st) lines st.
Proof.
  intros Hle Hfuel.
  replace fuel with ((length lines - i st) + (fuel - (length lines - i st)))
    by lia.
  rewrite while_loop_add. apply while_loop_done.
  rewrite while_loop_exits; lia.
Qed.

Lemma while_loop_step (fuel : nat) (lines : list str) (st : state) :
  i st < length lines ->
  length lines - i st <= fuel ->
  while_loop fuel lines st = while_loop fuel lines (body lines st).
Proof.
  intros Hlt Hfuel.
  pose proof (body_advances lines st Hlt) as Hadv.
  destruct fuel as [|fuel]; [lia|].
  assert (Ht : (i st <? length lines) = true) by (apply Nat.ltb_lt, Hlt).
  assert (E : while_loop (S fuel) lines st
              = while_loop fuel lines (body lines st))
    by (cbn [while_loop]; rewrite Ht; reflexivity).
  rewrite E.
  rewrite (while_loop_enough fuel), (while_loop_enough (S fuel)); try lia.
  reflexivity.
Qed.

(** ** The lines before a boundary the look-ahead does not cross *)

Lemma look_ahead_app_stop (x b : list str) (j : nat) (acc : list str) :
  (forall l t, b = l :: t -> is_continuation l = false) ->
  look_ahead (x ++ b) j acc = look_ahead x j acc.
Proof.
  intros Hb. revert j acc. induction x as [|l x IH]; intros j acc.
  - cbn [app]. destruct b as [|l t]; [reflexivity|].
    cbn [look_ahead]. rewrite (Hb l t eq_refl). reflexivity.
  - cbn [app look_ahead]. destruct (is_continuation l); [apply IH | reflexivity].
Qed.

Lemma body_app_left (a b : list str) (st : state) :
  i st < length a ->
  (forall l t, b = l :: t -> is_continuation l = false) ->
  body (a ++ b) st = body a st.
Proof.
  intros Hlt Hb. unfold body.
  rewrite app_nth1 by exact Hlt.
  rewrite skipn_app.
  replace (i st + 1 - length a) with 0 by lia. cbn [skipn].
  rewrite (look_ahead_app_stop _ b _ _ Hb). reflexivity.
Qed.

Lemma while_loop_app_left (a b : list str) (n : nat) :
  (forall l t, b = l :: t -> is_continuation l = false) ->
  forall (st : state) (fuel : nat),
    i st <= length a ->
    length a - i st <= n ->
    length (a ++ b) - i st <= fuel ->
    while_loop fuel (a ++ b) st
    = while_loop fuel (a ++ b) (while_loop n a st).
Proof.
  intros Hb. induction n as [|n IH]; intros st fuel Hle Hn Hfuel.
  - reflexivity.
  - cbn [while_loop]. destruct (i st <? length a) eqn:Ht; [|reflexivity].
    apply Nat.ltb_lt in Ht.
    pose proof (body_advances a st Ht) as Hadv.
    rewrite while_loop_step;
      [|rewrite length_app; lia | exact Hfuel].
    rewrite (body_app_left a b st Ht Hb).
    apply IH; lia.
Qed.

(** ** The lines after a boundary the scan stops at *)

Lemma skipn_app_plus (a b : list str) (n : nat) :
  skipn (length a + n) (a ++ b) = skipn n b.
Proof. induction a as [|x a IH]; [reflexivity | exact IH]. Qed.

Lemma look_ahead_shift (rest : list str) (n j : nat) (acc : list str) :
  look_ahead rest (n + j) acc
  = (n + fst (look_ahead rest j acc), snd (look_ahead rest j acc)).
Proof.
  revert j acc. induction rest as [|l rest IH]; intros j acc;
    cbn [look_ahead]; [reflexivity|].
  destruct (is_continuation l); [|reflexivity].
  rewrite <- Nat.add_assoc. apply IH.
Qed.

Lemma body_shift (a b acc : list str) (st : state) :
  i st < length b ->
  body (a ++ b)
       {| i := length a + i st; fixed_lines := acc ++ fixed_lines st |}
  = {| i := length a + i (body b st);
       fixed_lines := acc ++ fixed_lines (body b st) |}.
Proof.
  intros Hlt. unfold body. cbn [i fixed_lines].
  rewrite app_nth2_plus.
  rewrite <- Nat.add_assoc, skipn_app_plus, look_ahead_shift.
  destruct (is_candidate_start (nth (i st) b [])).
  - destruct (look_ahead (skipn (i st + 1) b) (i st + 1) []) as [j conts].
    cbn [fst snd]. destruct conts as [|c conts]; cbn [i fixed_lines].
    + rewrite <- app_assoc. reflexivity.
    + rewrite <- !app_assoc. reflexivity.
  - cbn [i fixed_lines]. rewrite <- app_assoc. reflexivity.
Qed.

Lemma while_loop_shift (a b acc : list str) (fuel : nat) (st : state) :
  while_loop fuel (a ++ b)
             {| i := length a + i st; fixed_lines := acc ++ fixed_lines st |}
  = {| i := length a + i (while_loop fuel b st);
       fixed_lines := acc ++ fixed_lines (while_loop fuel b st) |}.
Proof.
  revert st. induction fuel as [|fuel IH]; intros st; [reflexivity|].
  cbn [while_loop i].
  replace (length a + i st <? length (a ++ b)) with (i st <? length b).
  - destruct (i st <? length b) eqn:Ht; [|reflexivity].
    apply Nat.ltb_lt in Ht. rewrite body_shift by exact Ht. apply IH.
  - rewrite length_app.
    destruct (i st <? length b) eqn:Ht; symmetry.
    + apply Nat.ltb_lt in Ht. apply Nat.ltb_lt. lia.
    + apply Nat.ltb_ge in Ht. apply Nat.ltb_ge. lia.
Qed.

Lemma while_loop_final (lines : list str) :
  while_loop (length lines) lines init
  = {| i := length lines; fixed_lines := rewrite_lines lines |}.
Proof.
  pose proof (while_loop_exits (length lines) lines init) as H.
  unfold rewrite_lines. fold init.
  destruct (while_loop (length lines) lines init) as [k f].
  cbn [i fixed_lines] in *. rewrite H by (simpl; lia). reflexivity.
Qed.

(** ** Piece by piece *)

Lemma rewrite_lines_app (a b : list str) :
  (forall l t, b = l :: t -> is_continuation l = false) ->
  rewrite_lines (a ++ b) = rewrite_lines a ++ rewrite_lines b.
Proof.
  intros Hb. unfold rewrite_lines at 1. fold init.
  rewrite (while_loop_app_left a b (length a) Hb init (length (a ++ b)));
    try (simpl; lia).
  rewrite while_loop_final.
  replace {| i := length a; fixed_lines := rewrite_lines a |}
    with {| i := length a + i init;
            fixed_lines := rewrite_lines a ++ fixed_lines init |}
    by (cbn [i fixed_lines init]; rewrite Nat.add_0_r, app_nil_r; reflexivity).
  rewrite while_loop_shift. cbn [fixed_lines]. f_equal.
  rewrite (while_loop_enough (length (a ++ b)) b init);
    [|simpl; lia | rewrite length_app; simpl; lia].
  cbn [i init]. rewrite Nat.sub_0_r. reflexivity.
Qed.

Lemma rewrite_lines_after_unrelated (pre rest : list str) :
  Forall not_candidate pre ->
  rewrite_lines (pre ++ rest) = pre ++ rewrite_lines rest.
Proof.
  intros Hpre. destruct rest as [|c tl].
  - rewrite app_nil_r. cbn. rewrite app_nil_r.
    apply rewrite_lines_fixpoint, Hpre.
  - unfold rewrite_lines at 1. fold init.
    rewrite length_app, while_loop_add.
    rewrite (while_loop_copies pre c tl (length pre) init Hpre)
      by (simpl; lia || reflexivity).
    cbn [i init Nat.add]. rewrite firstn_all.
    replace {| i := length pre; fixed_lines := pre |}
      with {| i := length pre + i init;
              fixed_lines := pre ++ fixed_lines init |}
      by (cbn [i fixed_lines init]; rewrite Nat.add_0_r, app_nil_r; reflexivity).
    rewrite while_loop_shift. reflexivity.
Qed.

(** ** The same on text *)

Lemma split_app_newline (a b : str) (sep : char) :
  split (a ++ sep :: b) sep = split a sep ++ split b sep.
Proof.
  induction a as [|c a IH]; cbn [app split].
  - rewrite N.eqb_refl. reflexivity.
  - destruct (c =? sep)%N; rewrite IH; [reflexivity|].
    pose proof (split_nonempty a sep) as Hne.
    destruct (split a sep) as [|w ws]; [exfalso; auto | reflexivity].
Qed.

Lemma join_app (sep : str) (x y : list str) :
  x <> [] -> y <> [] ->
  join sep (x ++ y) = join sep x ++ sep ++ join sep y.
Proof.
  intros Hx Hy. induction x as [|p x IH]; [exfalso; auto|].
  destruct x as [|q x].
  - destruct y as [|r y]; [exfalso; auto | reflexivity].
  - change (join sep ((p :: q :: x) ++ y))
      with (p ++ sep ++ join sep ((q :: x) ++ y)).
    rewrite IH by discriminate.
    change (join sep (p :: q :: x)) with (p ++ sep ++ join sep (q :: x)).
    rewrite <- !app_assoc. reflexivity.
Qed.

Lemma rewrite_lines_nonempty (lines : list str) :
  lines <> [] -> rewrite_lines lines <> [].
Proof.
  intros Hne E. apply (f_equal (@length str)) in E.
  rewrite length_rewrite_lines in E. destruct lines; [auto | discriminate].
Qed.

End LocalityFacts.

Import LocalityFacts.

(* ================================================================== *)
(** * Facts about what a run writes, reports and finds *)
(* ================================================================== *)

Module RunFacts.

Import Script Observations.

(** ** Counting and collecting over a trace *)

Lemma fixed_reports_app (a b : list event) :
  fixed_reports (a ++ b) = fixed_reports a + fixed_reports b.
Proof. unfold fixed_reports. rewrite filter_app, length_app. reflexivity. Qed.

Lemma written_paths_app (a b : list event) :
  written_paths (a ++ b) = written_paths a ++ written_paths b.
Proof. unfold written_paths. apply flat_map_app. Qed.

Lemma error_line_not_report (file_path : str) (e : exn) :
  is_fixed_report (Print (error_line file_path e)) = false.
Proof. reflexivity. Qed.

Lemma fixed_line_is_report (file_path : str) :
  is_fixed_report (Print (lit "Fixed: " ++ file_path)) = true.
Proof. apply startswith_app. Qed.

Lemma candidate_or_none (lines : list str) :
  Exists (fun l => is_candidate_start l = true) lines \/
  Forall not_candidate lines.
Proof.
  induction lines as [|l lines [IH | IH]].
  - right. constructor.
  - left. apply Exists_cons_tl, IH.
  - destruct (is_candidate_start l) eqn:E.
    + left. apply Exists_cons_hd, E.
    + right. constructor; assumption.
Qed.

Lemma changed_iff_candidate (content : str) :
  rewrite_content content <> content <->
  Exists (fun l => is_candidate_start l = true) (split content NEWLINE).
Proof.
  split.
  - intros Hne.
    destruct (candidate_or_none (split content NEWLINE)) as [Hex | Hall];
      [exact Hex|].
    exfalso. apply Hne, rewrite_content_fixpoint, Hall.
  - intros Hex E. apply (f_equal (fun t => split t NEWLINE)) in E.
    rewrite split_rewrite_content in E.
    exact (rewrite_lines_changes _ Hex E).
Qed.

Lemma candidate_and_none (lines : list str) :
  Exists (fun l => is_candidate_start l = true) lines ->
  Forall not_candidate lines -> False.
Proof.
  intros Hex Hall. apply Exists_exists in Hex. destruct Hex as [l [Hl Hc]].
  rewrite Forall_forall in Hall. specialize (Hall l Hl).
  cbv beta in Hall. congruence.
Qed.

(** ** One file *)

Section Files.

Variable FS : Type.
Variable stdout_encodes : char -> bool.
Variable encode_error : str -> exn.
Variable read_text : FS -> str -> exn + str.
Variable write_text : FS -> str -> str -> FS * option exn.
Variable scan_tree : FS -> str -> exn + list dirent.

Lemma fix_way (file_path : str) (w : world FS) :
  way FS stdout_encodes encode_error read_text write_text file_path w.
Proof.
  destruct (read_text (files w) file_path) as [e | content] eqn:Hr.
  - apply (Unreadable FS stdout_encodes encode_error read_text write_text
                 file_path w e Hr).
    destruct (printable stdout_encodes (error_line file_path e)) eqn:Hp.
    + apply fix_read_error; assumption.
    + apply fix_read_error_unreported; assumption.
  - destruct (candidate_or_none (split content NEWLINE)) as [Hex | Hall].
    + assert (Hne : rewrite_content content <> content)
        by exact (proj2 (changed_iff_candidate content) Hex).
      destruct (write_text (files w) file_path (rewrite_content content))
        as [fs' [e|]] eqn:Hw.
      * apply (Unwritable FS stdout_encodes encode_error read_text write_text
                 file_path w content fs' e Hr Hex Hw).
        destruct (printable stdout_encodes (error_line file_path e)) eqn:Hp.
        -- apply fix_write_error; assumption.
        -- apply fix_write_error_unreported; assumption.
      * apply (Rewritten FS stdout_encodes encode_error read_text write_text
                 file_path w content fs' Hr Hex Hw).
        destruct (printable stdout_encodes file_path) eqn:Hp.
        -- apply fix_written; assumption.
        -- apply fix_written_unreported; assumption.
    + apply (Unchanged FS stdout_encodes encode_error read_text write_text
                 file_path w content Hr Hall).
      exact (fix_unchanged FS stdout_encodes encode_error read_text write_text
               file_path w content Hr (rewrite_content_fixpoint content Hall)).
Qed.

Lemma fix_outcome (file_path : str) (w : world FS) :
  exists (out : outcome bool) (fs' : FS) (added : list event),
    fix_missing_println stdout_encodes encode_error read_text write_text
                        file_path w
    = (out, {| files := fs'; trace := trace w ++ added |}) /\
    fixed_reports added
    = match out with Returned true => 1 | _ => 0 end /\
    incl (written_paths added) [file_path].
Proof.
  destruct (fix_way file_path w)
    as [e Hr H | content Hr Hnc H | content fs' e Hr Hex Hw H
        | content fs' Hr Hex Hw H]; rewrite H.
  - destruct (printable stdout_encodes (error_line file_path e)).
    + exists (Returned false), (files w), [Print (error_line file_path e)].
      split; [reflexivity|]. split; [reflexivity | intros p []].
    + exists (Raised (encode_error (error_line file_path e))), (files w), [].
      split; [rewrite app_nil_r; destruct w; reflexivity|].
      split; [reflexivity | intros p []].
  - exists (Returned false), (files w), [].
    split; [rewrite app_nil_r; destruct w; reflexivity|].
    split; [reflexivity | intros p []].
  - destruct (printable stdout_encodes (error_line file_path e)).
    + exists (Returned false), fs'. eexists. split; [reflexivity|].
      split; [reflexivity|]. intros p [<- | []]. left. reflexivity.
    + eexists (Raised _), fs'. eexists. split; [reflexivity|].
      split; [reflexivity|]. intros p [<- | []]. left. reflexivity.
  - destruct (printable stdout_encodes file_path).
    + exists (Returned true), fs'. eexists. split; [reflexivity|]. split.
      * unfold fixed_reports. cbn [filter is_fixed_report].
        rewrite startswith_app. reflexivity.
      * intros p [<- | []]. left. reflexivity.
    + eexists (Raised _), fs'. eexists. split; [reflexivity|].
      split; [reflexivity|]. intros p [<- | []]. left. reflexivity.
Qed.




(** ** All the files *)

Lemma fix_all_outcome (rust_files : list str) (n : nat) (w : world FS) :
  exists (out : outcome nat) (fs' : FS) (added : list event),
    fix_all stdout_encodes encode_error read_text write_text rust_files n w
    = (out, {| files := fs'; trace := trace w ++ added |}) /\
    (forall m, out = Returned m -> m = n + fixed_reports added) /\
    fixed_reports added <= length rust_files /\
    incl (written_paths added) rust_files.
Proof.
  revert n w. induction rust_files as [|p rest IH]; intros n w.
  - exists (Returned n), (files w), []. split.
    + cbn [fix_all]. unfold ret. rewrite app_nil_r. destruct w; reflexivity.
    + split; [intros m [= <-]; cbn; lia|].
      split; [cbn; lia | intros q []].
  - destruct (fix_outcome p w) as [[fixed | e] [fs1 [added1 [H1 [Hc1 Hp1]]]]].
    + rewrite (fix_all_step FS stdout_encodes encode_error read_text
                 write_text p rest n w _ fixed H1).
      destruct (IH (if fixed then n + 1 else n)
                   {| files := fs1; trace := trace w ++ added1 |})
        as [out [fs2 [added2 [H2 [Hm [Hc2 Hp2]]]]]].
      cbn [trace] in H2. rewrite <- app_assoc in H2.
      exists out, fs2, (added1 ++ added2). split; [exact H2|].
      rewrite fixed_reports_app, written_paths_app, Hc1.
      split; [intros m Hout; specialize (Hm m Hout); destruct fixed; lia|].
      split; [destruct fixed; simpl; lia|].
      apply incl_app.
      * intros q Hq. destruct (Hp1 q Hq) as [<- | []]. left. reflexivity.
      * intros q Hq. right. apply Hp2, Hq.
    + rewrite (fix_all_abort FS stdout_encodes encode_error read_text
                 write_text p rest n w _ e H1).
      exists (Raised e), fs1, added1. split; [reflexivity|].
      split; [intros m Hout; discriminate Hout|].
      rewrite Hc1. split; [simpl; lia|].
      intros q Hq. destruct (Hp1 q Hq) as [<- | []]. left. reflexivity.
Qed.

End Files.

(** ** Paths *)

Lemma path_join_endswith (a b suffix : str) :
  endswith b suffix = true -> endswith (path_join a b) suffix = true.
Proof.
  rewrite !endswith_iff. intros [t ->]. unfold path_join.
  destruct (startswith (t ++ suffix) (lit "/")); [exists t; reflexivity|].
  destruct (eqb_str a [] || endswith a (lit "/")).
  - exists (a ++ t). apply app_assoc.
  - exists (a ++ lit "/" ++ t). rewrite <- !app_assoc. reflexivity.
Qed.

Lemma in_nondirs_of (entries : list dirent) (name : str) :
  In name (nondirs_of entries) <-> In (FileEnt name) entries.
Proof.
  unfold nondirs_of. rewrite in_map_iff. split.
  - intros [e [Hn He]]. apply filter_In in He. destruct He as [He Hd].
    destruct e; try discriminate Hd. simpl in Hn. subst. exact He.
  - intros H. exists (FileEnt name). split; [reflexivity|].
    apply filter_In. split; [exact H | reflexivity].
Qed.

Lemma in_rust_files_here (top : str) (entries : list dirent) (p : str) :
  In p (map (path_join top)
            (filter (fun file => endswith file (lit ".rs")) (nondirs_of entries)))
  <-> exists name,
        In (FileEnt name) entries /\ endswith name (lit ".rs") = true /\
        p = path_join top name.
Proof.
  rewrite in_map_iff. split.
  - intros [name [Hp Hn]]. apply filter_In in Hn. destruct Hn as [Hn Hrs].
    exists name. rewrite <- in_nondirs_of. auto.
  - intros [name [Hn [Hrs ->]]]. exists name. split; [reflexivity|].
    apply filter_In. split; [apply in_nondirs_of, Hn | exact Hrs].
Qed.

Lemma in_find_rust_files_cons (item : walk_item) (walk : list walk_item) (p : str) :
  In p (find_rust_files (item :: walk)) <->
  In p (find_rust_files [item]) \/ In p (find_rust_files walk).
Proof.
  unfold find_rust_files. cbn [flat_map]. rewrite app_nil_r, in_app_iff.
  reflexivity.
Qed.

Lemma in_find_rust_files_flat_map (f : dirent -> list walk_item)
      (entries : list dirent) (p : str) :
  In p (find_rust_files (flat_map f entries)) <->
  exists e, In e entries /\ In p (find_rust_files (f e)).
Proof.
  unfold find_rust_files. rewrite in_flat_map. split.
  - intros [item [Hitem Hp]]. apply in_flat_map in Hitem.
    destruct Hitem as [e [He Hitem]]. exists e. split; [exact He|].
    apply in_flat_map. exists item. auto.
  - intros [e [He Hp]]. apply in_flat_map in Hp.
    destruct Hp as [item [Hitem Hp]]. exists item. split; [|exact Hp].
    apply in_flat_map. exists e. auto.
Qed.

(** ** The walk finds the files that are listed, and no other *)

Lemma dirent_induction (P : dirent -> Prop) :
  (forall name, P (FileEnt name)) ->
  (forall name, P (DirLink name)) ->
  (forall name e, P (DirEnt name (inl e))) ->
  (forall name entries, Forall P entries -> P (DirEnt name (inr entries))) ->
  forall e, P e.
Proof.
  intros Hf Hl He Hd. fix IH 1. intros [name | name | name [e | entries]].
  - apply Hf.
  - apply Hl.
  - apply He.
  - apply Hd. induction entries as [|x entries IHe]; constructor.
    + apply IH.
    + apply IHe.
Qed.

Lemma level_finds_listed (top : str) (entries : list dirent) (p : str) :
  Forall walk_entry_finds_listed entries ->
  (In p (find_rust_files
           ((top, dirs_of entries, nondirs_of entries)
              :: flat_map (walk_entry top) entries)) <->
   exists name, listed top entries name p /\ endswith name (lit ".rs") = true).
Proof.
  intros Hall. rewrite Forall_forall in Hall.
  rewrite in_find_rust_files_cons, in_find_rust_files_flat_map.
  unfold find_rust_files at 1. cbn [flat_map]. rewrite app_nil_r.
  rewrite in_rust_files_here. split.
  - intros [[name [Hn [Hrs ->]]] | [e [He Hp]]].
    + exists name. split; [apply listed_here, Hn | exact Hrs].
    + apply (Hall e He) in Hp. destruct Hp as [dir [sub [name [-> [Hl Hrs]]]]].
      exists name. split; [|exact Hrs].
      apply (listed_below top entries dir sub name p He Hl).
  - intros [name [Hl Hrs]]. inversion Hl as [? ? ? Hn | ? ? dir sub ? ? He Hsub]; subst.
    + left. exists name. auto.
    + right. exists (DirEnt dir (inr sub)). split; [exact He|].
      apply (Hall _ He). exists dir, sub, name. auto.
Qed.

Lemma walk_entry_sound_complete (e : dirent) : walk_entry_finds_listed e.
Proof.
  induction e as [name | name | name err | name entries IH]
    using dirent_induction; intros top p.
  - split; [intros [] | intros [dir [sub [n [E _]]]]; discriminate E].
  - split; [intros [] | intros [dir [sub [n [E _]]]]; discriminate E].
  - split; [intros [] | intros [dir [sub [n [E _]]]]; discriminate E].
  - cbn [walk_entry]. rewrite (level_finds_listed _ entries p IH). split.
    + intros [n [Hl Hrs]]. exists name, entries, n. auto.
    + intros [dir [sub [n [E [Hl Hrs]]]]]. inversion E; subst.
      exists n. auto.
Qed.

Lemma os_walk_finds_listed (top : str) (entries : list dirent) (p : str) :
  In p (find_rust_files (os_walk top (inr entries))) <->
  exists name, listed top entries name p /\ endswith name (lit ".rs") = true.
Proof.
  cbn [os_walk]. apply level_finds_listed.
  apply Forall_forall. intros e _. apply walk_entry_sound_complete.
Qed.

Lemma find_rust_files_rs (walk : list walk_item) (p : str) :
  In p (find_rust_files walk) -> endswith p (lit ".rs") = true.
Proof.
  unfold find_rust_files. rewrite in_flat_map.
  intros [[[root dirs] files] [_ Hp]].
  apply in_map_iff in Hp. destruct Hp as [name [<- Hn]].
  apply filter_In in Hn. apply path_join_endswith, Hn.
Qed.

End RunFacts.

Import RunFacts.

(* ================================================================== *)
(** * Facts about a block on its own *)
(* ================================================================== *)

Module BlockFacts.

Lemma rewrite_lines_one_block (c : str) (run : list str) :
  is_candidate_start c = true ->
  Forall (fun l => is_continuation l = true) run ->
  rewrite_lines (c :: run) = reconstruct c run.
Proof.
  intros Hc Hrun. unfold rewrite_lines. fold init.
  assert (Hc' : is_candidate_start (nth (i init) (c :: run) []) = true)
    by exact Hc.
  destruct (body_block (c :: run) init Hc')
    as [run' [tail' [Hs [_ [Ht [_ Hb]]]]]].
  cbn [i init Nat.add skipn nth] in Hs, Hb.
  assert (Htail : tail' = []).
  { destruct tail' as [|l t]; [reflexivity|]. exfalso.
    rewrite Hs in Hrun. apply Forall_app in Hrun. destruct Hrun as [_ Hl].
    inversion Hl as [|? ? Hcont _]; subst.
    rewrite (Ht l t eq_refl) in Hcont. discriminate. }
  subst tail'. rewrite app_nil_r in Hs. subst run'.
  change (length (c :: run)) with (S (length run)).
  cbn [while_loop]. change (i init <? length (c :: run)) with true.
  cbn iota. fold init. rewrite Hb.
  rewrite while_loop_done by (simpl; lia). reflexivity.
Qed.

Lemma stop_of_hd (b : list str) :
  is_continuation (hd [] b) = false ->
  forall l t, b = l :: t -> is_continuation l = false.
Proof. intros H l t ->. exact H. Qed.

End BlockFacts.

Import BlockFacts.

Import Observations.

(* ================================================================== *)
(** * Further properties of the script *)
(* ================================================================== *)

(** ** The lines of the output *)

(** X1: the rewriter neither adds nor removes lines: the fixed lines are
    as many as the lines read, and the new content has as many lines,
    hence as many newlines, as the original content. *)
Theorem rewriting_keeps_line_count :
  (forall lines : list str, length (rewrite_lines lines) = length lines) /\
  (forall content : str,
      length (split (rewrite_content content) NEWLINE)
      = length (split content NEWLINE)).
Proof.
  split; [exact length_rewrite_lines|].
  intros content. rewrite split_rewrite_content. apply length_rewrite_lines.
Qed.

(** X2: the new content differs from the original content exactly when
    some line of the original has the shape of a candidate-start: no
    candidate is ever left as it is, and nothing else triggers a
    change. *)
Theorem content_changes_iff_candidate (content : str) :
  rewrite_content content = content <->
  Forall (fun l => is_candidate_start l = false) (split content NEWLINE).
Proof.
  split; [|apply rewrite_content_fixpoint].
  intros E. apply (f_equal (fun t => split t NEWLINE)) in E.
  rewrite split_rewrite_content in E.
  destruct (candidate_or_none (split content NEWLINE)) as [Hex | Hall];
    [|exact Hall].
  exfalso. exact (rewrite_lines_changes _ Hex E).
Qed.

(** X3: every line of the output stands at the index of the line it comes
    from, and is that line unchanged, or that line wrapped in the macro
    (it then has the shape of a candidate-start), or that line with its
    trailing commas replaced by a closing parenthesis and semicolon (its
    stripped text then ends with a comma).  Lines are never moved, merged
    or dropped. *)
Theorem each_line_is_kept_wrapped_or_closed (lines : list str) (k : nat) :
  k < length lines ->
  let line := nth k lines [] in
  let out := nth k (rewrite_lines lines) [] in
  out = line \/
  (is_candidate_start line = true /\
   (out = println_open line \/ out = println_single line)) \/
  (endswith (strip line) (lit ",") = true /\
   out = rstrip_chars (rstrip line) (lit ",") ++ lit ");").
Proof.
  intros Hk line out.
  destruct (rewrite_lines_fate lines k Hk) as [H | [H | [Hc H]]].
  - left. exact H.
  - right. left. exact H.
  - fold line out in H, Hc. unfold close_last, is_continuation in *.
    destruct (endswith (strip line) (lit ");")) eqn:E.
    + left. exact H.
    + right. right. cbn [andb] in Hc. rewrite orb_false_r in Hc.
      split; [exact Hc | exact H].
Qed.

Lemma each_line_witness :
  2 < length [fmt_line; arg_x; arg_y; lone_closing] /\
  nth 2 (rewrite_lines [fmt_line; arg_x; arg_y; lone_closing]) []
  = lit "        y);".
Proof.
  assert (Hk : 2 < length [fmt_line; arg_x; arg_y; lone_closing])
    by (simpl; lia).
  split; [exact Hk|].
  destruct (each_line_is_kept_wrapped_or_closed
              [fmt_line; arg_x; arg_y; lone_closing] 2 Hk)
    as [H | [[H _] | [_ H]]].
  - vm_compute in H. discriminate H.
  - vm_compute in H. discriminate H.
  - rewrite H. reflexivity.
Defined.

(** X4: the leading whitespace of every line of the output is the leading
    whitespace of the line of the input at the same index: the rewriter
    keeps the indentation of each line. *)
Theorem indentation_is_kept (lines : list str) (k : nat) :
  re_leading_ws (nth k (rewrite_lines lines) [])
  = re_leading_ws (nth k lines []).
Proof.
  destruct (Nat.lt_ge_cases k (length lines)) as [Hk | Hk].
  - apply line_fate_indent, rewrite_lines_fate, Hk.
  - rewrite !nth_overflow; [reflexivity | exact Hk |].
    rewrite length_rewrite_lines. exact Hk.
Qed.

(** X5: a blank line (empty, or whitespace only) is never rewritten nor
    taken into a block: it comes out unchanged at its index.  In
    particular a content that ends with a newline is rewritten to the
    rewriting of what precedes that newline, followed by a newline. *)
Theorem blank_lines_are_kept :
  (forall (lines : list str) k,
      strip (nth k lines []) = [] ->
      nth k (rewrite_lines lines) [] = nth k lines []) /\
  (forall content : str,
      rewrite_content (content ++ [NEWLINE])
      = rewrite_content content ++ [NEWLINE]).
Proof.
  split.
  - intros lines k Hb.
    destruct (Nat.lt_ge_cases k (length lines)) as [Hk | Hk].
    + apply (blank_line_fate _ _ Hb), rewrite_lines_fate, Hk.
    + rewrite !nth_overflow; [reflexivity | exact Hk |].
      rewrite length_rewrite_lines. exact Hk.
  - intros content. unfold rewrite_content.
    rewrite split_app_newline.
    rewrite rewrite_lines_app by (intros l t E; inversion E; reflexivity).
    rewrite join_app;
      [reflexivity | apply rewrite_lines_nonempty, split_nonempty | discriminate].
Qed.

Lemma blank_lines_witness :
  strip (nth 1 [orphan; lit "   "; let_line] []) = [] /\
  nth 1 (rewrite_lines [orphan; lit "   "; let_line]) [] = lit "   ".
Proof.
  assert (Hb : strip (nth 1 [orphan; lit "   "; let_line] []) = [])
    by reflexivity.
  split; [exact Hb|].
  exact (proj1 blank_lines_are_kept [orphan; lit "   "; let_line] 1 Hb).
Defined.

(** X6: the rewriter never removes the macro token, nor any other
    exclusion substring, from a line: a line of the input that contains
    one still contains it in the output, also when the line is consumed
    as the last continuation of a block and has its ending replaced. *)
Theorem exclusion_substrings_are_kept (lines : list str) (k : nat) (sub : str) :
  In sub EXCLUDED ->
  contains (nth k lines []) sub = true ->
  contains (nth k (rewrite_lines lines) []) sub = true.
Proof.
  intros Hin Hsub.
  destruct (Nat.lt_ge_cases k (length lines)) as [Hk | Hk].
  - exact (line_fate_keeps_excluded _ _ sub Hin (rewrite_lines_fate lines k Hk) Hsub).
  - rewrite nth_overflow in Hsub by exact Hk.
    rewrite nth_overflow; [exact Hsub|].
    rewrite length_rewrite_lines. exact Hk.
Qed.

Lemma exclusion_substrings_witness :
  In (lit "let ") EXCLUDED /\
  contains (nth 1 [orphan; let_line] []) (lit "let ") = true /\
  contains (nth 1 (rewrite_lines [orphan; let_line]) []) (lit "let ") = true.
Proof.
  assert (Hin : In (lit "let ") EXCLUDED) by (simpl; tauto).
  assert (Hc : contains (nth 1 [orphan; let_line] []) (lit "let ") = true)
    by reflexivity.
  split; [exact Hin|]. split; [exact Hc|].
  exact (exclusion_substrings_are_kept [orphan; let_line] 1 (lit "let ") Hin Hc).
Defined.

(** ** Rewriting piece by piece *)

(** X7: rewriting is local.  If the first line of the second part of a
    list of lines is not a continuation line, no block of the first part
    reaches into the second, and the lines are rewritten part by part;
    the same holds for a text cut at a newline. *)
Theorem rewriting_is_local :
  (forall a b : list str,
      is_continuation (hd [] b) = false ->
      rewrite_lines (a ++ b) = rewrite_lines a ++ rewrite_lines b) /\
  (forall a b : str,
      is_continuation (hd [] (split b NEWLINE)) = false ->
      rewrite_content (a ++ NEWLINE :: b)
      = rewrite_content a ++ NEWLINE :: rewrite_content b).
Proof.
  split.
  - intros a b Hb. apply rewrite_lines_app, stop_of_hd, Hb.
  - intros a b Hb. unfold rewrite_content.
    rewrite split_app_newline.
    rewrite rewrite_lines_app by (apply stop_of_hd, Hb).
    rewrite join_app;
      [reflexivity | apply rewrite_lines_nonempty, split_nonempty
       | apply rewrite_lines_nonempty, split_nonempty].
Qed.

Lemma rewriting_is_local_witness :
  is_continuation (hd [] [lone_closing; hello]) = false /\
  rewrite_lines ([fmt_line; arg_x; arg_y] ++ [lone_closing; hello])
  = rewrite_lines [fmt_line; arg_x; arg_y] ++ rewrite_lines [lone_closing; hello].
Proof.
  assert (H : is_continuation (hd [] [lone_closing; hello]) = false)
    by reflexivity.
  split; [exact H|].
  exact (proj1 rewriting_is_local [fmt_line; arg_x; arg_y] [lone_closing; hello] H).
Defined.

(** X8: lines before the first line of candidate shape are copied as they
    are, and the rewriting of what follows does not depend on them. *)
Theorem unrelated_prefix_is_copied (pre rest : list str) :
  Forall (fun l => is_candidate_start l = false) pre ->
  rewrite_lines (pre ++ rest) = pre ++ rewrite_lines rest.
Proof. apply rewrite_lines_after_unrelated. Qed.

Lemma unrelated_prefix_witness :
  Forall (fun l => is_candidate_start l = false) [lit "fn f() {"; arg_x] /\
  rewrite_lines ([lit "fn f() {"; arg_x] ++ [hello; lit "}"])
  = [lit "fn f() {"; arg_x] ++ rewrite_lines [hello; lit "}"].
Proof.
  assert (H : Forall (fun l => is_candidate_start l = false)
                     [lit "fn f() {"; arg_x])
    by (repeat (constructor; [reflexivity|]); constructor).
  split; [exact H|].
  exact (unrelated_prefix_is_copied [lit "fn f() {"; arg_x] [hello; lit "}"] H).
Defined.

(** X9: the loop rewrites block by block.  A list that starts with a
    candidate-start, goes on with a run of continuation lines and then
    with lines of which the first is not a continuation, is rewritten to
    the reconstruction of the block followed by the rewriting of the
    remaining lines. *)
Theorem rewrite_lines_block_by_block (c : str) (run tail : list str) :
  is_candidate_start c = true ->
  Forall (fun l => is_continuation l = true) run ->
  is_continuation (hd [] tail) = false ->
  rewrite_lines (c :: run ++ tail) = reconstruct c run ++ rewrite_lines tail.
Proof.
  intros Hc Hrun Htail.
  change (c :: run ++ tail) with ((c :: run) ++ tail).
  rewrite rewrite_lines_app by (apply stop_of_hd, Htail).
  rewrite (rewrite_lines_one_block c run Hc Hrun). reflexivity.
Qed.

Lemma block_by_block_witness :
  is_candidate_start fmt_line = true /\
  Forall (fun l => is_continuation l = true) [arg_x; arg_y] /\
  is_continuation (hd [] [lone_closing; hello]) = false /\
  rewrite_lines (fmt_line :: [arg_x; arg_y] ++ [lone_closing; hello])
  = reconstruct fmt_line [arg_x; arg_y] ++ rewrite_lines [lone_closing; hello].
Proof.
  assert (Hc : is_candidate_start fmt_line = true) by reflexivity.
  assert (Hrun : Forall (fun l => is_continuation l = true) [arg_x; arg_y])
    by (repeat constructor).
  assert (Ht : is_continuation (hd [] [lone_closing; hello]) = false)
    by reflexivity.
  split; [exact Hc|]. split; [exact Hrun|]. split; [exact Ht|].
  exact (rewrite_lines_block_by_block fmt_line [arg_x; arg_y]
           [lone_closing; hello] Hc Hrun Ht).
Defined.

(* ================================================================== *)
(** * Facts about a whole run *)
(* ================================================================== *)

Module MainFacts.

Import Script.

Lemma main_outcome (FS : Type) (stdout_encodes : char -> bool)
      (encode_error : str -> exn)
      (read_text : FS -> str -> exn + str)
      (write_text : FS -> str -> str -> FS * option exn)
      (scan_tree : FS -> str -> exn + list dirent) (w : world FS) :
  let rust_files :=
    find_rust_files (os_walk backend_dir (scan_tree (files w) backend_dir)) in
  exists (out : outcome unit) (fs' : FS) (added : list event),
    main stdout_encodes encode_error read_text write_text scan_tree w
    = (out,
       {| files := fs';
          trace :=
            trace w
              ++ [Print (lit "Found " ++ str_of_nat (length rust_files)
                           ++ lit " Rust files to process...")]
              ++ added
              ++ match out with
                 | Returned _ =>
                     [Print (lit "Fixed " ++ str_of_nat (fixed_reports added)
                               ++ lit " files")]
                 | Raised _ => []
                 end |}) /\
    fixed_reports added <= length rust_files /\
    incl (written_paths added) rust_files.
Proof.
  intros rust_files.
  pose proof (main_unfold FS stdout_encodes encode_error read_text write_text
                scan_tree w) as Hmain.
  cbv zeta in Hmain. fold rust_files in Hmain. rewrite Hmain. clear Hmain.
  match goal with
  | |- context [fix_all _ _ _ _ _ 0 ?w0] =>
      destruct (fix_all_outcome FS stdout_encodes encode_error read_text
                  write_text rust_files 0 w0)
        as [out [fs' [added [H [Hm [Hle Hin]]]]]]; rewrite H
  end.
  destruct out as [m | e].
  - exists (Returned tt), fs', added. split; [|split; assumption].
    rewrite (Hm m eq_refl). cbn [files trace plus].
    rewrite <- !app_assoc. reflexivity.
  - exists (Raised e), fs', added. split; [|split; assumption].
    cbn [files trace]. rewrite app_nil_r, <- app_assoc. reflexivity.
Qed.

End MainFacts.

Import MainFacts.

(** ** Files and runs *)


(** A call on a file that is rewritten, whose name the standard output
    cannot encode: the file is written, and the call raises. *)
Example written_then_raises :
  fix_missing_println ascii_stdout demo_encode_error demo_read demo_write
    cafe_rs (demo_world [(cafe_rs, inr hello)])
  = (Raised (demo_encode_error
               (error_line cafe_rs
                  (demo_encode_error (lit "Fixed: " ++ cafe_rs)))),
     {| files := [(cafe_rs, inr hello_fixed); (cafe_rs, inr hello)];
        trace := [Write cafe_rs hello_fixed] |}).
Proof. vm_compute. reflexivity. Qed.


(** X12: whether it returns or raises, [main] writes only to files the
    walk found, and every path it writes to ends with the extension of
    Rust sources: no other file is ever opened for writing. *)
Theorem only_found_rust_files_are_written
        (FS : Type) (stdout_encodes : char -> bool) (encode_error : str -> exn)
        (read_text : FS -> str -> exn + str)
        (write_text : FS -> str -> str -> FS * option exn)
        (scan_tree : FS -> str -> exn + list dirent) (w : world FS) :
  exists (out : outcome unit) (fs' : FS) (added : list event),
    main stdout_encodes encode_error read_text write_text scan_tree w
    = (out, {| files := fs'; trace := trace w ++ added |}) /\
    forall p,
      In p (written_paths added) ->
      In p (find_rust_files
              (os_walk backend_dir (scan_tree (files w) backend_dir))) /\
      endswith p (lit ".rs") = true.
Proof.
  destruct (main_outcome FS stdout_encodes encode_error read_text write_text
              scan_tree w) as [out [fs' [added [H [_ Hin]]]]].
  exists out, fs'. eexists. split; [exact H|].
  intros p Hp. rewrite !written_paths_app in Hp.
  assert (Hlast : written_paths
                    match out with
                    | Returned _ =>
                        [Print (lit "Fixed " ++ str_of_nat (fixed_reports added)
                                  ++ lit " files")]
                    | Raised _ => []
                    end = [])
    by (destruct out; reflexivity).
  rewrite Hlast in Hp.
  cbn [written_paths flat_map app] in Hp. rewrite app_nil_r in Hp.
  assert (Hfound : In p (find_rust_files
                           (os_walk backend_dir (scan_tree (files w) backend_dir))))
    by (apply Hin, Hp).
  split; [exact Hfound | exact (find_rust_files_rs _ p Hfound)].
Qed.

(** X13: the files [main] collects are exactly the entries that are not
    directories, whose name ends with the extension of Rust sources, in
    the root directory or below it through directories that can be
    listed and are not links; a root that cannot be listed gives none. *)
Theorem walk_finds_exactly_the_listed_rust_files (top : str) :
  (forall (entries : list dirent) (p : str),
      In p (find_rust_files (os_walk top (inr entries))) <->
      exists name,
        listed top entries name p /\ endswith name (lit ".rs") = true) /\
  (forall e : exn, find_rust_files (os_walk top (inl e)) = []).
Proof.
  split; [apply os_walk_finds_listed | reflexivity].
Qed.

(** The walk on a tree with a directory that cannot be listed and a link
    to a directory. *)
Example walk_of_demo_tree :
  find_rust_files (os_walk backend_dir (inr demo_tree))
  = [ in_backend "lib.rs";
      path_join (path_join backend_dir (lit "api")) (lit "mod.rs") ].
Proof. reflexivity. Qed.
